(** * PathFinding.js, [src/core/Grid.js]: a shallow embedding and its properties

    The grid of the path finders: a rectangle of [Node] objects, bounds and
    walkability queries with one-sided border tags, the enumeration of the
    neighbours of a cell, cloning and the generation counter.

    Conventions of the embedding.
    - JavaScript numbers that hold integers (coordinates, sizes, the
      generation counter) are [Z].  Comparisons are exact; the sums and
      differences of coordinates and loop counters are exact below 2^53,
      and the increment of the generation counter, which alone can reach
      that bound, is rounded to the nearest double ([to_double]).
    - [Node] objects are mutable and live in a store ([Heap]); a grid holds
      references to them, so that sharing between two grids is visible.
    - The arrays of a grid are written only while they are built, before
      they are stored in the grid: they are represented by their final
      contents, a [list (list loc)] indexed [row][column].
    - A JavaScript exception is a [Throw] result. *)

From Stdlib Require Import ZArith Lia Bool Btauto.
From stdpp Require Import base tactics option list strings.

Local Open Scope Z_scope.

(** ** Exceptions and the two monads of the embedding *)

Inductive JsError : Type :=
| TypeError        (* a property read or written on [undefined] *)
| RangeError       (* [new Array(n)] with an invalid length *)
| MatrixSizeError. (* [new Error('Matrix size does not fit')] *)

Inductive result (A : Type) : Type :=
| Ok (a : A)
| Throw (e : JsError).
Arguments Ok {A} a.
Arguments Throw {A} e.

Definition rbind {A B} (r : result A) (k : A -> result B) : result B :=
  match r with
  | Ok a => k a
  | Throw e => Throw e
  end.

Notation "'try' x <- r ; k" := (rbind r (fun x => k))
  (at level 10, x name, r at level 100, k at level 200,
   format "'[v' 'try'  x  <-  r ; '/' k ']'").

(** [a && b] of JavaScript where both operands may throw: the right operand
    is evaluated only when the left one is true. *)
Definition rand (a b : result bool) : result bool :=
  match a with
  | Ok true => b
  | Ok false => Ok false
  | Throw e => Throw e
  end.
Infix "&&&" := rand (at level 40, left associativity).

(** ** The Node collaborator *)

(** References to node objects. *)
Abbreviation loc := nat.

Module Node.

(** Modelled from the spec: the Node class ([require('./Node')]) is not
    among the sources.  From the specification: a node has immutable
    integer coordinates, a [walkable] attribute that is a boolean or a
    directional tag string, walkable by default; a versioned read takes a
    generation number and returns a view of the node for that generation.
    The per-search fields of a view are outside the grid's concern and
    are left out: a view carries the coordinates, the walkable attribute
    as currently stored, and the generation it was read at. *)
Inductive Walkable : Type :=
| WBool (b : bool)
| WTag (tag : string).

Record t : Type := mk { x : Z; y : Z; walkable : Walkable }.

Record view : Type :=
  mkView { vx : Z; vy : Z; vwalkable : Walkable; generation : Z }.

(** Modelled from the spec: [new Node(x, y, walkable)], the attribute
    defaulting to [true] when the argument is not given. *)
Definition new (x y : Z) (walkable : option Walkable) : t :=
  mk x y (default (WBool true) walkable).

(** Modelled from the spec: [node.get(iteration)], the versioned read. *)
Definition get (n : t) (iteration : Z) : view :=
  mkView (x n) (y n) (walkable n) iteration.

Definition set_walkable (w : Walkable) (n : t) : t := mk (x n) (y n) w.

End Node.

Abbreviation Heap := (list Node.t).

(** State and exceptions: the store after the computation is kept also when
    it throws. *)
Definition M (A : Type) : Type := Heap -> result A * Heap.

Definition ret {A} (a : A) : M A := fun h => (Ok a, h).
Definition throw {A} (e : JsError) : M A := fun h => (Throw e, h).
Definition bind {A B} (m : M A) (k : A -> M B) : M B :=
  fun h =>
    match m h with
    | (Ok a, h') => k a h'
    | (Throw e, h') => (Throw e, h')
    end.
(** A computation that only reads the store. *)
Definition read {A} (r : Heap -> result A) : M A := fun h => (r h, h).

Notation "'do' x <- m ; k" := (bind m (fun x => k))
  (at level 10, x name, m at level 100, k at level 200,
   format "'[v' 'do'  x  <-  m ; '/' k ']'").

Definition alloc (n : Node.t) : M loc := fun h => (Ok (length h), h ++ [n]).

Definition deref (l : loc) (h : Heap) : result Node.t :=
  match h !! l with
  | Some n => Ok n
  | None => Throw TypeError
  end.

(** [obj.walkable = w] on the object at [l]. *)
Definition assign_walkable (l : loc) (w : Node.Walkable) : M unit :=
  fun h =>
    match h !! l with
    | Some n => (Ok tt, <[l := Node.set_walkable w n]> h)
    | None => (Throw TypeError, h)
    end.

(** ** Arrays *)

(** [new Array(n)]: a length that is not an array length throws. *)
Definition new_Array (n : Z) : M unit :=
  if (0 <=? n) && (n <? 2 ^ 32) then ret tt else throw RangeError.

(** [a[i]] where [i] is an integer-valued number: [None] is [undefined]. *)
Definition index {A} (a : list A) (i : Z) : option A :=
  if 0 <=? i then a !! Z.to_nat i else None.

(** [a[i][j]]: reading a property of [undefined] throws; the result may
    itself be [undefined]. *)
Definition index2 {A} (a : list (list A)) (i j : Z) : result (option A) :=
  match index a i with
  | Some row => Ok (index row j)
  | None => Throw TypeError
  end.

(** [nodes[i][j]] used as an object: every use in the source reads or writes
    a property of it at once, which throws on [undefined]. *)
Definition node_ref (nodes : list (list loc)) (i j : Z) : result loc :=
  try o <- index2 nodes i j;
  match o with
  | Some l => Ok l
  | None => Throw TypeError
  end.

(** [for (i = from; i < from + count; ++i) a[i] = body(i)], the array built
    being the result. *)
Fixpoint for_fill {A} (count : nat) (i : Z) (body : Z -> M A) : M (list A) :=
  match count with
  | O => ret []
  | S count' =>
      do a <- body i;
      do rest <- for_fill count' (i + 1) body;
      ret (a :: rest)
  end.

(** [for (i = from; i < from + count; ++i) body(i)]. *)
Fixpoint for_each (count : nat) (i : Z) (body : Z -> M unit) : M unit :=
  match count with
  | O => ret tt
  | S count' => do _ <- body i; for_each count' (i + 1) body
  end.

(** ** The obstacle matrix *)

Inductive MatrixCell : Type :=
| MNum (n : Z)
| MBool (b : bool)
| MNull.

Abbreviation Matrix := (list (list MatrixCell)).

(** Truthiness of [matrix[i][j]]; [None] is [undefined]. *)
Definition truthy (v : option MatrixCell) : bool :=
  match v with
  | Some (MNum n) => negb (n =? 0)
  | Some (MBool b) => b
  | Some MNull => false
  | None => false
  end.

(** ** Numbers *)

(** The double nearest to the integer [m], ties going to the even
    significand: integers up to 2^53 in magnitude are doubles; beyond, a
    double keeps the 53 leading bits.  (Integers beyond the largest finite
    double, about 2^1024, are not values of the program.) *)
Definition to_double (m : Z) : Z :=
  let a := Z.abs m in
  if a <=? 2 ^ 53 then m
  else
    let e := Z.log2 a - 52 in
    let q := a / 2 ^ e in
    let r := a mod 2 ^ e in
    let half := 2 ^ (e - 1) in
    let q' := if (half <? r) || ((r =? half) && Z.odd q) then q + 1 else q in
    Z.sgn m * (q' * 2 ^ e).

(** ** The Grid class *)

Module Grid.

Record t : Type :=
  mk { width : Z; height : Z; nodes : list (list loc); iteration : Z }.

Definition set_nodes (ns : list (list loc)) (g : t) : t :=
  mk (width g) (height g) ns (iteration g).

(** The two nested loops that allocate the nodes; [walkable j i] computes
    the third argument of [new Node(j, i, ...)]. *)
Definition fill_nodes (width height : Z)
    (walkable : Z -> Z -> M (option Node.Walkable)) : M (list (list loc)) :=
  do _ <- new_Array height;
  for_fill (Z.to_nat height) 0 (fun i =>
    do _ <- new_Array width;
    for_fill (Z.to_nat width) 0 (fun j =>
      do w <- walkable j i;
      alloc (Node.new j i w))).

(** The loops that apply the matrix. *)
Definition mark_nodes (width height : Z) (matrix : Matrix)
    (nodes : list (list loc)) : M unit :=
  for_each (Z.to_nat height) 0 (fun i =>
    for_each (Z.to_nat width) 0 (fun j =>
      do cell <- read (fun _ => index2 matrix i j);
      if truthy cell then
        do l <- read (fun _ => node_ref nodes i j);
        assign_walkable l (Node.WBool false)
      else ret tt)).

Definition _buildNodes (width height : Z) (matrix : option Matrix)
    : M (list (list loc)) :=
  do nodes <- fill_nodes width height (fun _ _ => ret None);
  match matrix with
  | None => ret nodes
  | Some matrix =>
      if negb (Z.of_nat (length matrix) =? height) then throw MatrixSizeError
      else
        match index matrix 0 with
        | None => throw TypeError
        | Some row0 =>
            if negb (Z.of_nat (length row0) =? width)
            then throw MatrixSizeError
            else
              do _ <- mark_nodes width height matrix nodes;
              ret nodes
        end
  end.

(** [new Grid(width, height, matrix)]. *)
Definition new (width height : Z) (matrix : option Matrix) : M t :=
  do nodes <- _buildNodes width height matrix;
  ret (mk width height nodes 0).

Definition isInside (this : t) (x y : Z) : bool :=
  ((x >=? 0) && (x <? width this)) && ((y >=? 0) && (y <? height this)).

Definition getNodeAt (this : t) (x y : Z) (h : Heap) : result Node.view :=
  try l <- node_ref (nodes this) y x;
  try n <- deref l h;
  Ok (Node.get n (iteration this)).

(** [walkable != border] for a string [walkable]; [border] is a string or
    [undefined], and no string is loosely equal to [undefined]. *)
Definition differs (tag : string) (border : option string) : bool :=
  match border with
  | Some b => negb (String.eqb tag b)
  | None => true
  end.

Definition isWalkableAt (this : t) (x y : Z) (border : option string)
    (h : Heap) : result bool :=
  if negb (isInside this x y) then Ok false
  else
    try l <- node_ref (nodes this) y x;
    try n <- deref l h;
    match Node.vwalkable (Node.get n (iteration this)) with
    | Node.WTag walkable => Ok (differs walkable border)
    | Node.WBool walkable => Ok walkable
    end.

Definition setWalkableAt (this : t) (x y : Z) (walkable : Node.Walkable)
    : M unit :=
  do l <- read (fun _ => node_ref (nodes this) y x);
  assign_walkable l walkable.

(** [if (cond) { neighbors.push(nodes[y][x].get(this.iteration)); }] *)
Definition push_if (this : t) (cond : bool) (y x : Z)
    (neighbors : list Node.view) (h : Heap) : result (list Node.view) :=
  if cond then
    try l <- node_ref (nodes this) y x;
    try n <- deref l h;
    Ok (neighbors ++ [Node.get n (iteration this)])
  else Ok neighbors.

Definition getNeighbors (this : t) (node : Node.view)
    (allowDiagonal dontCrossCorners : bool) (h : Heap)
    : result (list Node.view) :=
  let x := Node.vx node in
  let y := Node.vy node in
  let neighbors := [] in
  let W x y border := isWalkableAt this x y (Some border) h in
  (* up *)
  try s0 <- W x (y - 1) "bottom" &&& W x y "top";
  try neighbors <- push_if this s0 (y - 1) x neighbors h;
  (* right *)
  try s1 <- W (x + 1) y "left" &&& W x y "right";
  try neighbors <- push_if this s1 y (x + 1) neighbors h;
  (* down *)
  try s2 <- W x (y + 1) "top" &&& W x y "bottom";
  try neighbors <- push_if this s2 (y + 1) x neighbors h;
  (* left *)
  try s3 <- W (x - 1) y "right" &&& W x y "left";
  try neighbors <- push_if this s3 y (x - 1) neighbors h;
  if negb allowDiagonal then Ok neighbors
  else
    let '(d0, d1, d2, d3) :=
      if dontCrossCorners
      then (s3 && s0, s0 && s1, s1 && s2, s2 && s3)
      else (s3 || s0, s0 || s1, s1 || s2, s2 || s3) in
    (* up-left *)
    try c <- Ok d0 &&& W (x - 1) (y - 1) "bottom" &&& W (x - 1) y "top"
             &&& W (x - 1) (y - 1) "right" &&& W x (y - 1) "left";
    try neighbors <- push_if this c (y - 1) (x - 1) neighbors h;
    (* up-right *)
    try c <- Ok d1 &&& W (x + 1) (y - 1) "bottom" &&& W (x + 1) y "top"
             &&& W (x + 1) (y - 1) "left" &&& W x (y - 1) "right";
    try neighbors <- push_if this c (y - 1) (x + 1) neighbors h;
    (* down-right *)
    try c <- Ok d2 &&& W (x + 1) (y + 1) "top" &&& W (x + 1) y "bottom"
             &&& W (x + 1) (y + 1) "left" &&& W x (y + 1) "right";
    try neighbors <- push_if this c (y + 1) (x + 1) neighbors h;
    (* down-left *)
    try c <- Ok d3 &&& W (x - 1) (y + 1) "top" &&& W (x - 1) y "bottom"
             &&& W (x - 1) (y + 1) "right" &&& W x (y + 1) "left";
    try neighbors <- push_if this c (y + 1) (x - 1) neighbors h;
    Ok neighbors.

Definition clone (this : t) : M t :=
  let width := width this in
  let height := height this in
  let thisNodes := nodes this in
  do newGrid <- new width height None;
  do newNodes <- fill_nodes width height (fun j i =>
    do l <- read (fun _ => node_ref thisNodes i j);
    do n <- read (deref l);
    ret (Some (Node.walkable n)));
  ret (set_nodes newNodes newGrid).

(** [this.iteration++]: the sum is a double. *)
Definition increment (this : t) : t :=
  mk (width this) (height this) (nodes this)
     (to_double (iteration this + 1)).

End Grid.

Import Grid.

(** ** Well-formed grids

    The shape a grid has from its construction on: [height] rows of
    [width] references each, every reference pointing to a node of the
    store whose coordinates are its column and row. *)

Fixpoint all_from {A} (f : nat -> A -> bool) (i : nat) (l : list A) : bool :=
  match l with
  | [] => true
  | a :: l' => f i a && all_from f (S i) l'
  end.

Definition node_ok (h : Heap) (i j : nat) (l : loc) : bool :=
  match h !! l with
  | Some n => (Node.x n =? Z.of_nat j) && (Node.y n =? Z.of_nat i)
  | None => false
  end.

Definition row_ok (h : Heap) (width : Z) (i : nat) (row : list loc) : bool :=
  (length row =? Z.to_nat width)%nat && all_from (node_ok h i) 0 row.

(** [n] is a length [new Array(n)] accepts. *)
Definition array_length (n : Z) : Prop := 0 <= n < 2 ^ 32.

(** The sizes with which [new Grid] returns. *)
Definition sizes_ok (width height : Z) : bool :=
  ((0 <=? height) && (height <? 2 ^ 32))
  && ((height =? 0) || ((0 <=? width) && (width <? 2 ^ 32))).

Definition wf (g : Grid.t) (h : Heap) : bool :=
  sizes_ok (width g) (height g)
  && ((length (nodes g) =? Z.to_nat (height g))%nat
      && all_from (row_ok h (width g)) 0 (nodes g)).

(** The node object of the cell in column [x] of row [y], if there is one. *)
Definition cell (g : Grid.t) (h : Heap) (x y : Z) : option Node.t :=
  match index (nodes g) y with
  | Some row =>
      match index row x with
      | Some l => h !! l
      | None => None
      end
  | None => None
  end.

(** What a node's [walkable] attribute answers for a border tag. *)
Definition answers (w : Node.Walkable) (border : option string) : bool :=
  match w with
  | Node.WTag tag => differs tag border
  | Node.WBool b => b
  end.

(** Walkability as a total function of the grid and the store. *)
Definition walk (g : Grid.t) (h : Heap) (x y : Z) (border : option string)
    : bool :=
  isInside g x y
  && match cell g h x y with
     | Some n => answers (Node.walkable n) border
     | None => false
     end.

(** The view [getNodeAt] gives of a cell, if there is one. *)
Definition view_at (g : Grid.t) (h : Heap) (x y : Z) : option Node.view :=
  n ← cell g h x y; Some (Node.get n (iteration g)).

Definition coords (v : Node.view) : Z * Z := (Node.vx v, Node.vy v).

(** ** The enumeration of neighbours, after the specification

    A second definition, written from the specification's words, against
    which [getNeighbors] is compared. *)
Module Spec.

(** The four sides of a cell; an orthogonal move goes towards a side. *)
Inductive Side : Type := Top | Right | Bottom | Left.

Definition tag (s : Side) : option string :=
  Some match s with
       | Top => "top" | Right => "right" | Bottom => "bottom" | Left => "left"
       end%string.

Definition opposite (s : Side) : Side :=
  match s with
  | Top => Bottom | Right => Left | Bottom => Top | Left => Right
  end.

Definition towards (s : Side) (p : Z * Z) : Z * Z :=
  let '(x, y) := p in
  match s with
  | Top => (x, y - 1)
  | Right => (x + 1, y)
  | Bottom => (x, y + 1)
  | Left => (x - 1, y)
  end.

(** The double check of an orthogonal move from [p] towards side [s]:
    (a) the neighbour is walkable for the tag of its side facing [p],
    (b) [p] is walkable for the tag of its side facing the neighbour. *)
Definition step_ok (g : Grid.t) (h : Heap) (p : Z * Z) (s : Side) : bool :=
  walk g h (towards s p).1 (towards s p).2 (tag (opposite s))
  && walk g h p.1 p.2 (tag s).

(** A direction: an orthogonal move, or the diagonal framed by two. *)
Inductive Dir : Type :=
| Straight (s : Side)
| Diagonal (a b : Side).

Definition up := Straight Top.
Definition right := Straight Right.
Definition down := Straight Bottom.
Definition left := Straight Left.
Definition up_left := Diagonal Left Top.
Definition up_right := Diagonal Top Right.
Definition down_right := Diagonal Right Bottom.
Definition down_left := Diagonal Bottom Left.

Definition order (allowDiagonal : bool) : list Dir :=
  [up; right; down; left]
  ++ (if allowDiagonal then [up_left; up_right; down_right; down_left]
      else []).

Definition target (d : Dir) (p : Z * Z) : Z * Z :=
  match d with
  | Straight s => towards s p
  | Diagonal a b => towards a (towards b p)
  end.

(** Eligibility of a diagonal from the success of its framing moves. *)
Definition eligible (dontCrossCorners sa sb : bool) : bool :=
  if dontCrossCorners then sa && sb else sa || sb.

(** The four checks of the diagonal framed by [a] and [b]: the double
    check of the move from each flanking cell to the diagonal target. *)
Definition four_checks (g : Grid.t) (h : Heap) (p : Z * Z) (a b : Side)
    : bool :=
  step_ok g h (towards a p) b && step_ok g h (towards b p) a.

Definition included (g : Grid.t) (h : Heap) (dontCrossCorners : bool)
    (p : Z * Z) (d : Dir) : bool :=
  match d with
  | Straight s => step_ok g h p s
  | Diagonal a b =>
      eligible dontCrossCorners (step_ok g h p a) (step_ok g h p b)
      && four_checks g h p a b
  end.

Definition entry (g : Grid.t) (h : Heap) (dontCrossCorners : bool)
    (p : Z * Z) (d : Dir) : list Node.view :=
  if included g h dontCrossCorners p d
  then option_list (view_at g h (target d p).1 (target d p).2)
  else [].

Definition neighbors (g : Grid.t) (h : Heap) (node : Node.view)
    (allowDiagonal dontCrossCorners : bool) : list Node.view :=
  let p := coords node in
  concat (map (entry g h dontCrossCorners p) (order allowDiagonal)).

End Spec.

(** A sequence of views has one at the coordinates [p]. *)
Definition has (ns : list Node.view) (p : Z * Z) : Prop :=
  exists v, v ∈ ns /\ coords v = p.

(** ** Vocabulary of the statements *)

(** [isWalkableAt] answers [true] for the cell [p] and the tag of side [s]. *)
Definition passes (g : Grid.t) (h : Heap) (p : Z * Z) (s : Spec.Side) : Prop :=
  isWalkableAt g p.1 p.2 (Spec.tag s) h = Ok true.

(** The four checks the source makes for the diagonal framed by the moves
    towards [a] and towards [b]: with [t] the diagonal target, the target
    and the flanking cell of [a] on their common border, then the target
    and the flanking cell of [b] on theirs. *)
Definition four_pass (g : Grid.t) (h : Heap) (p : Z * Z) (a b : Spec.Side)
    : Prop :=
  let t := Spec.towards a (Spec.towards b p) in
  passes g h t (Spec.opposite b) /\ passes g h (Spec.towards a p) b /\
  passes g h t (Spec.opposite a) /\ passes g h (Spec.towards b p) a.

(** The orthogonal move from [p] towards side [s] succeeds, by the two
    checks the source makes for it: the neighbour for the tag of its side
    facing [p], then [p] for the tag of side [s]. *)
Definition succeeded (g : Grid.t) (h : Heap) (p : Z * Z) (s : Spec.Side)
    : Prop :=
  passes g h (Spec.towards s p) (Spec.opposite s) /\ passes g h p s.

(** The diagonal framed by the moves towards [a] and towards [b] is
    eligible, by the checks of its framing moves and the corner policy:
    both moves succeed, or one of them does. *)
Definition eligible_diagonal (dontCrossCorners : bool) (g : Grid.t)
    (h : Heap) (p : Z * Z) (a b : Spec.Side) : Prop :=
  if dontCrossCorners
  then succeeded g h p a /\ succeeded g h p b
  else succeeded g h p a \/ succeeded g h p b.

(** The four diagonals with their framing moves: up-left by left and up,
    up-right by up and right, down-right by right and down, down-left by
    down and left. *)
Definition diagonals : list (Spec.Side * Spec.Side) :=
  [(Spec.Left, Spec.Top); (Spec.Top, Spec.Right);
   (Spec.Right, Spec.Bottom); (Spec.Bottom, Spec.Left)].

(** The grid and the store a successful construction leaves. *)
Definition built (r : result Grid.t * Heap) : Grid.t * Heap :=
  match r with
  | (Ok g, h) => (g, h)
  | (Throw _, h) => (Grid.mk 0 0 [] 0, h)
  end.

(** A 4x4 grid without obstacles, in an empty store. *)
Definition open4 : Grid.t * Heap := built (Grid.new 4 4 None []).

(** The view of an open cell of a fresh grid. *)
Definition open_view (x y : Z) : Node.view :=
  Node.mkView x y (Node.WBool true) 0.

(** The 4x4 grid after [setWalkableAt(1, 1, "top")]. *)
Definition tagged4 : Grid.t * Heap :=
  (open4.1, (setWalkableAt open4.1 1 1 (Node.WTag "top") open4.2).2).

(** A 3x3 matrix with a one in the centre, and the grid built from it:
    the centre alone is blocked. *)
Definition ring_matrix : Matrix :=
  [[MNum 0; MNum 0; MNum 0]; [MNum 0; MNum 1; MNum 0];
   [MNum 0; MNum 0; MNum 0]].

Definition ring3 : Grid.t * Heap :=
  built (Grid.new 3 3 (Some ring_matrix) []).

(** ** The store after the allocation loops, in closed form *)

(** The nodes [new Node(j, i, W j i)] for [n] columns from [j] on. *)
Fixpoint row_nodes (n : nat) (j i : Z) (W : Z -> Z -> option Node.Walkable)
    : list Node.t :=
  match n with
  | O => []
  | S n' => Node.new j i (W j i) :: row_nodes n' (j + 1) i W
  end.

(** The nodes of [m] rows of [wn] columns from row [i] on, in the order of
    their allocation. *)
Fixpoint grid_nodes (m : nat) (i : Z) (wn : nat)
    (W : Z -> Z -> option Node.Walkable) : list Node.t :=
  match m with
  | O => []
  | S m' => row_nodes wn 0 i W ++ grid_nodes m' (i + 1) wn W
  end.

(** The references to them, when the first is [base]. *)
Fixpoint grid_locs (m : nat) (base : nat) (wn : nat) : list (list loc) :=
  match m with
  | O => []
  | S m' => seq base wn :: grid_locs m' (base + wn) wn
  end.

(** [matrix[i][j]] when row [i] exists; [None] is [undefined]. *)
Definition matrix_at (matrix : Matrix) (i j : Z) : option MatrixCell :=
  match index matrix i with
  | Some row => index row j
  | None => None
  end.

(** The matrix has [height] rows of [width] columns each. *)
Definition rectangular (width height : Z) (matrix : Matrix) : bool :=
  (Z.of_nat (length matrix) =? height)
  && forallb (fun row => Z.of_nat (length row) =? width) matrix.

(** What the source checks of the matrix: the number of rows, and the
    length of the first row. *)
Definition size_fits (width height : Z) (matrix : Matrix) : bool :=
  (Z.of_nat (length matrix) =? height)
  && match matrix with
     | row0 :: _ => Z.of_nat (length row0) =? width
     | [] => true
     end.

(** The node array [nodes] was filled from the store [h0], which gave [h1]:
    [height] rows of [width] references to nodes allocated since [h0], the
    node of row [i] and column [j] being [new Node(j, i, W j i)]. *)
Definition filled (W : Z -> Z -> option Node.Walkable) (width height : Z)
    (h0 : Heap) (nodes : list (list loc)) (h1 : Heap) : Prop :=
  h0 `prefix_of` h1 /\
  length nodes = Z.to_nat height /\
  forall i row, nodes !! i = Some row ->
    length row = Z.to_nat width /\
    forall j l, row !! j = Some l ->
      (length h0 <= l)%nat /\
      h1 !! l = Some (Node.new (Z.of_nat j) (Z.of_nat i)
                        (W (Z.of_nat j) (Z.of_nat i))).

(** The cell [(i, j)] comes before [(a, b)] in the order of the loops. *)
Definition done_before (a b i j : Z) : bool :=
  (i <? a) || ((i =? a) && (j <? b)).

(** The store while the matrix is applied to the nodes filled in [h1], the
    loops being at row [a] and column [b]: the cells before are marked as
    the matrix says, the others are walkable, older nodes are untouched. *)
Definition marked (matrix : Matrix) (h0 : Heap) (nodes : list (list loc))
    (h1 : Heap) (a b : Z) (h : Heap) : Prop :=
  length h = length h1 /\
  (forall l, (l < length h0)%nat -> h !! l = h1 !! l) /\
  forall i row j l, nodes !! i = Some row -> row !! j = Some l ->
    h !! l = Some (Node.mk (Z.of_nat j) (Z.of_nat i)
                     (Node.WBool
                        (negb (done_before a b (Z.of_nat i) (Z.of_nat j)
                               && truthy (matrix_at matrix (Z.of_nat i)
                                            (Z.of_nat j)))))).

(** A matrix for a 2x2 grid whose second row is too long. *)
Definition ragged : Matrix := [[MNum 0; MNum 0]; [MNum 0; MNum 0; MNum 1]].

(** ** The grid as a state machine

    A method call on a grid [this]: the receiver and the store after the
    call, and what the call returned or threw.  The methods that assign
    nothing to [this] leave the receiver as it was. *)

Inductive Call : Type :=
| CallIsInside (x y : Z)
| CallIsWalkableAt (x y : Z) (border : option string)
| CallGetNodeAt (x y : Z)
| CallSetWalkableAt (x y : Z) (walkable : Node.Walkable)
| CallGetNeighbors (node : Node.view) (allowDiagonal dontCrossCorners : bool)
| CallClone
| CallIncrement.

Inductive Value : Type :=
| VUndefined
| VBool (b : bool)
| VView (v : Node.view)
| VViews (vs : list Node.view)
| VGrid (g : Grid.t).

Definition rmap {A B} (f : A -> B) (r : result A) : result B :=
  match r with
  | Ok a => Ok (f a)
  | Throw e => Throw e
  end.

Definition call (c : Call) (this : Grid.t) (h : Heap)
    : Grid.t * Heap * result Value :=
  match c with
  | CallIsInside x y => (this, h, Ok (VBool (isInside this x y)))
  | CallIsWalkableAt x y border =>
      (this, h, rmap VBool (isWalkableAt this x y border h))
  | CallGetNodeAt x y => (this, h, rmap VView (getNodeAt this x y h))
  | CallSetWalkableAt x y walkable =>
      let '(r, h') := setWalkableAt this x y walkable h in
      (this, h', rmap (fun _ => VUndefined) r)
  | CallGetNeighbors node allowDiagonal dontCrossCorners =>
      (this, h,
       rmap VViews (getNeighbors this node allowDiagonal dontCrossCorners h))
  | CallClone =>
      let '(r, h') := clone this h in (this, h', rmap VGrid r)
  | CallIncrement => (increment this, h, Ok VUndefined)
  end.

(** A sequence of calls on the same grid. *)
Fixpoint run (cs : list Call) (this : Grid.t) (h : Heap) : Grid.t * Heap :=
  match cs with
  | [] => (this, h)
  | c :: cs' => let '(this', h', _) := call c this h in run cs' this' h'
  end.

Definition is_increment (c : Call) : bool :=
  match c with
  | CallIncrement => true
  | _ => false
  end.

(** The number of [increment()] among the calls. *)
Definition increments (cs : list Call) : Z :=
  Z.of_nat (length (filter (fun c => is_increment c = true) cs)).

(** The reference of the cell in column [x] of row [y] of a grid. *)
Definition ref_at (g : Grid.t) (x y : Z) : result loc :=
  node_ref (nodes g) y x.

(** The walkable attributes of the cells of [g], as [clone] reads them. *)
Definition attribute (g : Grid.t) (h : Heap) (j i : Z)
    : option Node.Walkable :=
  Node.walkable <$> cell g h j i.

(** ** Vocabulary of the further properties *)

(** The attribute is a boolean, not a tag. *)
Definition is_boolean (w : Node.Walkable) : bool :=
  match w with
  | Node.WBool _ => true
  | Node.WTag _ => false
  end.

(** Every node the grid refers to has a boolean [walkable] attribute. *)
Definition booleans (g : Grid.t) (h : Heap) : bool :=
  forallb
    (forallb (fun l => match h !! l with
                       | Some n => is_boolean (Node.walkable n)
                       | None => false
                       end))
    (nodes g).

(** A view without the generation it was read at. *)
Definition strip (v : Node.view) : Z * Z * Node.Walkable :=
  (Node.vx v, Node.vy v, Node.vwalkable v).

(** The direction that leads back. *)
Definition reverse (d : Spec.Dir) : Spec.Dir :=
  match d with
  | Spec.Straight s => Spec.Straight (Spec.opposite s)
  | Spec.Diagonal a b => Spec.Diagonal (Spec.opposite a) (Spec.opposite b)
  end.

(** [isWalkableAt] without a border answers [true] for the cell [p]. *)
Definition open_at (g : Grid.t) (h : Heap) (p : Z * Z) : Prop :=
  isWalkableAt g p.1 p.2 None h = Ok true.

(** The eight positions around [(x, y)], in the order of [getNeighbors]. *)
Definition around (x y : Z) : list (Z * Z) :=
  [(x, y - 1); (x + 1, y); (x, y + 1); (x - 1, y);
   (x - 1, y - 1); (x + 1, y - 1); (x + 1, y + 1); (x - 1, y + 1)].

(** The cell [q] is inside and walkable when no border is asked. *)
Definition clear (g : Grid.t) (h : Heap) (q : Z * Z) : bool :=
  walk g h q.1 q.2 None.

(** The cells a move from [p] in direction [d] touches are all clear: the
    origin and the target, and for a diagonal the two flanking cells. *)
Definition clear_way (g : Grid.t) (h : Heap) (p : Z * Z) (d : Spec.Dir)
    : bool :=
  match d with
  | Spec.Straight s => clear g h p && clear g h (Spec.towards s p)
  | Spec.Diagonal a b =>
      clear g h p && clear g h (Spec.towards a p)
      && clear g h (Spec.towards b p)
      && clear g h (Spec.towards a (Spec.towards b p))
  end.

(** The call stores a tag string in a node. *)
Definition stores_tag (c : Call) : bool :=
  match c with
  | CallSetWalkableAt _ _ (Node.WTag _) => true
  | _ => false
  end.

(** The call is a [setWalkableAt]. *)
Definition is_setWalkableAt (c : Call) : bool :=
  match c with
  | CallSetWalkableAt _ _ _ => true
  | _ => false
  end.

(** The 4x4 grid with its generation counter at 2^53. *)
Definition worn4 : Grid.t := Grid.mk 4 4 (nodes open4.1) (2 ^ 53).

(** ** Basic facts *)

Lemma rbind_Ok {A B} (a : A) (k : A -> result B) : rbind (Ok a) k = k a.
Proof. reflexivity. Qed.

Lemma rand_Ok (a b : bool) : Ok a &&& Ok b = Ok (a && b).
Proof. by destruct a. Qed.

Lemma all_from_spec {A} (f : nat -> A -> bool) (k : nat) (l : list A) :
  all_from f k l = true <->
  forall i a, l !! i = Some a -> f (k + i)%nat a = true.
Proof.
  revert k; induction l as [|b l IH]; intros k; simpl.
  - split; [intros _ i a Hi; by rewrite lookup_nil in Hi | done].
  - rewrite andb_true_iff, IH. split.
    + intros [Hb Hl] [|i] a Hi; simpl in Hi.
      * injection Hi as <-. by rewrite Nat.add_0_r.
      * rewrite Nat.add_succ_r. by apply Hl.
    + intros Hall. split.
      * specialize (Hall 0%nat b eq_refl). by rewrite Nat.add_0_r in Hall.
      * intros i a Hi. specialize (Hall (S i) a Hi).
        by rewrite Nat.add_succ_r in Hall.
Qed.

Lemma index_Some {A} (a : list A) (i : Z) (v : A) :
  index a i = Some v <-> 0 <= i /\ a !! Z.to_nat i = Some v.
Proof.
  unfold index. destruct (0 <=? i) eqn:E.
  - apply Z.leb_le in E. tauto.
  - apply Z.leb_gt in E. split; [done | intros [? _]; lia].
Qed.

Lemma isInside_spec (g : Grid.t) (x y : Z) :
  isInside g x y = true <-> (0 <= x < width g) /\ (0 <= y < height g).
Proof.
  unfold isInside.
  rewrite !andb_true_iff, !Z.geb_le, !Z.ltb_lt. lia.
Qed.

(** The propositional reading of [wf]. *)
Lemma sizes_ok_spec (width height : Z) :
  sizes_ok width height = true <->
  array_length height /\ (height <> 0 -> array_length width).
Proof.
  unfold sizes_ok, array_length.
  rewrite !andb_true_iff, orb_true_iff, !andb_true_iff, !Z.leb_le, !Z.ltb_lt,
    Z.eqb_eq.
  lia.
Qed.

Lemma wf_spec (g : Grid.t) (h : Heap) :
  wf g h = true <->
  sizes_ok (width g) (height g) = true /\
  length (nodes g) = Z.to_nat (height g) /\
  forall i row, nodes g !! i = Some row ->
    length row = Z.to_nat (width g) /\
    forall j l, row !! j = Some l ->
      exists n, h !! l = Some n /\
                Node.x n = Z.of_nat j /\ Node.y n = Z.of_nat i.
Proof.
  unfold wf. rewrite !andb_true_iff, Nat.eqb_eq, all_from_spec.
  do 2 apply and_iff_compat_l.
  split; intros H i row Hrow; pose proof (H i row Hrow) as Hi; simpl in Hi.
  - clear H. rename Hi into H. unfold row_ok in H.
    rewrite andb_true_iff, Nat.eqb_eq, all_from_spec in H.
    destruct H as [Hlen Hcells]. split; [done|].
    intros j l Hl. specialize (Hcells j l Hl). simpl in Hcells.
    unfold node_ok in Hcells. destruct (h !! l) as [n|]; [|done].
    apply andb_true_iff in Hcells as [Hx Hy].
    apply Z.eqb_eq in Hx, Hy. eauto.
  - destruct Hi as [Hlen Hcells]. unfold row_ok.
    rewrite andb_true_iff, Nat.eqb_eq, all_from_spec. split; [done|].
    intros j l Hl. destruct (Hcells j l Hl) as (n & Hn & Hx & Hy). simpl.
    unfold node_ok. rewrite Hn, Hx, Hy, !Z.eqb_refl. done.
Qed.

(** In a well-formed grid the cells are the positions inside the bounds,
    and the node of a cell carries the cell's coordinates. *)
Lemma wf_inside_cell (g : Grid.t) (h : Heap) (x y : Z) :
  wf g h = true -> isInside g x y = true ->
  exists l n, node_ref (nodes g) y x = Ok l /\ h !! l = Some n /\
              cell g h x y = Some n /\ Node.x n = x /\ Node.y n = y.
Proof.
  intros (_ & Hrows & Hcells)%wf_spec [Hx Hy]%isInside_spec.
  destruct (lookup_lt_is_Some_2 (nodes g) (Z.to_nat y)) as [row Hrow];
    [lia|].
  destruct (Hcells _ _ Hrow) as [Hlen Hrowcells].
  destruct (lookup_lt_is_Some_2 row (Z.to_nat x)) as [l Hl]; [lia|].
  destruct (Hrowcells _ _ Hl) as (n & Hn & Hnx & Hny).
  exists l, n.
  assert (index (nodes g) y = Some row) as Hiy
    by (apply index_Some; split; [lia | done]).
  assert (index row x = Some l) as Hix
    by (apply index_Some; split; [lia | done]).
  unfold node_ref, index2, cell. rewrite Hiy. simpl. rewrite Hix.
  repeat split; [done | done | lia | lia].
Qed.

Lemma wf_cell_inside (g : Grid.t) (h : Heap) (x y : Z) (n : Node.t) :
  wf g h = true -> cell g h x y = Some n -> isInside g x y = true.
Proof.
  intros (_ & Hrows & Hcells)%wf_spec Hc. unfold cell in Hc.
  destruct (index (nodes g) y) as [row|] eqn:Hiy; [|done].
  destruct (index row x) as [l|] eqn:Hix; [|done].
  apply index_Some in Hiy as [Hy Hrow], Hix as [Hx Hl].
  destruct (Hcells _ _ Hrow) as [Hlen _].
  apply lookup_lt_Some in Hrow, Hl.
  apply isInside_spec. lia.
Qed.

Lemma walk_inside (g : Grid.t) (h : Heap) (x y : Z) (b : option string) :
  walk g h x y b = true -> isInside g x y = true.
Proof. unfold walk. by intros [? _]%andb_true_iff. Qed.

(** On a well-formed grid [isWalkableAt] returns, and returns [walk]. *)
Lemma isWalkableAt_wf (g : Grid.t) (h : Heap) (x y : Z) (b : option string) :
  wf g h = true -> isWalkableAt g x y b h = Ok (walk g h x y b).
Proof.
  intros Hwf. unfold isWalkableAt, walk.
  destruct (isInside g x y) eqn:Hin; simpl; [|done].
  destruct (wf_inside_cell g h x y Hwf Hin) as (l & n & -> & Hn & -> & _).
  simpl. unfold deref. rewrite Hn. simpl. by destruct (Node.walkable n).
Qed.

Lemma view_at_inside (g : Grid.t) (h : Heap) (x y : Z) :
  wf g h = true -> isInside g x y = true ->
  exists v, view_at g h x y = Some v /\ Node.vx v = x /\ Node.vy v = y /\
            Node.generation v = iteration g.
Proof.
  intros Hwf Hin.
  destruct (wf_inside_cell g h x y Hwf Hin) as (l & n & _ & _ & Hc & Hx & Hy).
  exists (Node.get n (iteration g)). unfold view_at. rewrite Hc.
  repeat split; done.
Qed.

Lemma push_if_wf (g : Grid.t) (h : Heap) (c : bool) (x y : Z)
    (ns : list Node.view) :
  wf g h = true -> (c = true -> isInside g x y = true) ->
  push_if g c y x ns h
  = Ok (ns ++ if c then option_list (view_at g h x y) else []).
Proof.
  intros Hwf Hin. unfold push_if. destruct c; [|by rewrite app_nil_r].
  destruct (wf_inside_cell g h x y Hwf (Hin eq_refl))
    as (l & n & -> & Hn & Hc & _).
  simpl. unfold deref, view_at. by rewrite Hn, Hc.
Qed.

(** ** [getNeighbors] computes the specification's enumeration *)

Lemma if_cond_ext {A} (c c' : bool) (l : list A) :
  c = c' -> (if c then l else []) = (if c' then l else []).
Proof. by intros ->. Qed.

Lemma entries_ext {A} (c c' : bool) (l k k' : list A) :
  c = c' -> k = k' ->
  (if c then l else []) ++ k = (if c' then l else []) ++ k'.
Proof. by intros -> ->. Qed.

Ltac inside_of_walk :=
  rewrite ?andb_true_iff; intuition eauto using walk_inside.

Lemma getNeighbors_refines (g : Grid.t) (h : Heap) (node : Node.view)
    (ad dcc : bool) :
  wf g h = true ->
  getNeighbors g node ad dcc h = Ok (Spec.neighbors g h node ad dcc).
Proof.
  intros Hwf. unfold getNeighbors. cbv zeta.
  destruct node as [x y w gen]; cbn [Node.vx Node.vy].
  rewrite !(isWalkableAt_wf _ _ _ _ _ Hwf), !rand_Ok.
  do 4 (rewrite rbind_Ok, push_if_wf by (done || inside_of_walk);
        rewrite rbind_Ok).
  unfold Spec.neighbors, Spec.order.
  destruct ad; cbn [negb app map concat];
    [destruct dcc; cbv beta iota; rewrite !rand_Ok;
     do 4 (rewrite rbind_Ok, push_if_wf by (done || inside_of_walk);
           rewrite rbind_Ok)|].
  all: f_equal; rewrite <- ?app_assoc, ?app_nil_r; cbn [app].
  all: unfold coords, Spec.entry, Spec.included, Spec.four_checks, Spec.eligible,
         Spec.step_ok, Spec.tag, Spec.up, Spec.right, Spec.down, Spec.left,
         Spec.up_left, Spec.up_right, Spec.down_right, Spec.down_left;
       cbn [Spec.target Spec.towards Spec.opposite Spec.tag fst snd
            Node.vx Node.vy].
  all: repeat (apply entries_ext; [btauto|]).
  all: apply if_cond_ext; btauto.
Qed.

(** ** Membership in the enumeration *)

Lemma towards_comm (a b : Spec.Side) (p : Z * Z) :
  Spec.towards a (Spec.towards b p) = Spec.towards b (Spec.towards a p).
Proof. destruct p, a, b; simpl; f_equal; lia. Qed.

Lemma step_ok_inside (g : Grid.t) (h : Heap) (p : Z * Z) (s : Spec.Side) :
  Spec.step_ok g h p s = true ->
  isInside g (Spec.towards s p).1 (Spec.towards s p).2 = true
  /\ isInside g p.1 p.2 = true.
Proof.
  unfold Spec.step_ok. rewrite andb_true_iff.
  intros [H1 H2]. eauto using walk_inside.
Qed.

Lemma included_inside (g : Grid.t) (h : Heap) (dcc : bool) (p : Z * Z)
    (d : Spec.Dir) :
  Spec.included g h dcc p d = true ->
  isInside g (Spec.target d p).1 (Spec.target d p).2 = true.
Proof.
  destruct d as [s|a b]; simpl.
  - by intros [? _]%step_ok_inside.
  - unfold Spec.four_checks. rewrite !andb_true_iff.
    intros (_ & _ & [H _]%step_ok_inside). done.
Qed.

Lemma elem_of_concat_map {A B} (f : A -> list B) (l : list A) (v : B) :
  v ∈ concat (map f l) <-> exists d, d ∈ l /\ v ∈ f d.
Proof.
  induction l as [|a l IH]; simpl.
  - split; [by intros ?%elem_of_nil | by intros (d & ?%elem_of_nil & _)].
  - rewrite elem_of_app, IH. split.
    + intros [Hv | (d & Hd & Hv)]; [exists a | exists d];
        (split; [|done]); [left | by right].
    + intros (d & Hd & Hv). apply elem_of_cons in Hd as [-> | Hd]; eauto.
Qed.

(** An entry is empty or the single view of its target cell. *)
Lemma entry_elem (g : Grid.t) (h : Heap) (dcc : bool) (p : Z * Z)
    (d : Spec.Dir) (v : Node.view) :
  v ∈ Spec.entry g h dcc p d <->
  Spec.included g h dcc p d = true
  /\ view_at g h (Spec.target d p).1 (Spec.target d p).2 = Some v.
Proof.
  unfold Spec.entry. destruct (Spec.included g h dcc p d).
  - destruct (view_at g h _ _) as [v'|]; simpl.
    + rewrite list_elem_of_singleton. split; [by intros -> | by intros [_ [= ->]]].
    + split; [by intros ?%elem_of_nil | by intros [_ ?]].
  - split; [by intros ?%elem_of_nil | by intros [? _]].
Qed.

Lemma entry_cases (g : Grid.t) (h : Heap) (dcc : bool) (p : Z * Z)
    (d : Spec.Dir) :
  wf g h = true ->
  (Spec.included g h dcc p d = false /\ Spec.entry g h dcc p d = [])
  \/ (Spec.included g h dcc p d = true /\
      exists v, Spec.entry g h dcc p d = [v] /\ coords v = Spec.target d p
                /\ Node.generation v = iteration g).
Proof.
  intros Hwf. unfold Spec.entry.
  destruct (Spec.included g h dcc p d) eqn:Hinc; [right | by left].
  split; [done|]. apply included_inside in Hinc.
  destruct (view_at_inside g h _ _ Hwf Hinc) as (v & -> & Hx & Hy & Hgen).
  exists v. repeat split; [|done].
  unfold coords. rewrite Hx, Hy. by destruct (Spec.target d p).
Qed.

Lemma target_inj (p : Z * Z) (d d' : Spec.Dir) :
  d ∈ Spec.order true -> d' ∈ Spec.order true ->
  Spec.target d p = Spec.target d' p -> d = d'.
Proof.
  intros Hd Hd' Heq. destruct p as [x y].
  unfold Spec.order in Hd, Hd'. simpl in Hd, Hd'.
  repeat (apply elem_of_cons in Hd as [-> | Hd]);
    try (by apply elem_of_nil in Hd);
    repeat (apply elem_of_cons in Hd' as [-> | Hd']);
    try (by apply elem_of_nil in Hd');
    try reflexivity; simpl in Heq; injection Heq; lia.
Qed.

Lemma order_true (ad : bool) (d : Spec.Dir) :
  d ∈ Spec.order ad -> d ∈ Spec.order true.
Proof.
  unfold Spec.order. rewrite !elem_of_app. destruct ad; [done|].
  intros [?|?%elem_of_nil]; [by left | done].
Qed.

(** The enumeration has a view at the target of a direction exactly when
    the direction is requested and included. *)
Lemma has_target (g : Grid.t) (h : Heap) (node : Node.view) (ad dcc : bool)
    (d : Spec.Dir) :
  wf g h = true -> d ∈ Spec.order true ->
  has (Spec.neighbors g h node ad dcc) (Spec.target d (coords node)) <->
  d ∈ Spec.order ad /\ Spec.included g h dcc (coords node) d = true.
Proof.
  intros Hwf Hd. unfold has, Spec.neighbors. split.
  - intros (v & (d' & Hd' & Hv)%elem_of_concat_map & Hc).
    destruct (entry_cases g h dcc (coords node) d' Hwf)
      as [[_ He] | (Hinc & v' & He & Hv' & _)]; rewrite He in Hv.
    + by apply elem_of_nil in Hv.
    + apply list_elem_of_singleton in Hv as ->.
      assert (d' = d) as ->; [|done].
      apply (target_inj (coords node)); eauto using order_true. congruence.
  - intros [Hin Hinc].
    destruct (entry_cases g h dcc (coords node) d Hwf)
      as [[Hf _] | (_ & v & He & Hv & _)]; [congruence|].
    exists v. split; [|done]. apply elem_of_concat_map.
    exists d. split; [done|]. rewrite He. apply list_elem_of_singleton. done.
Qed.

(** The coordinates of the enumeration follow the fixed order of the
    directions, the directions left out being absent. *)
Lemma neighbors_sublist (g : Grid.t) (h : Heap) (node : Node.view)
    (ad dcc : bool) :
  wf g h = true ->
  map coords (Spec.neighbors g h node ad dcc)
    `sublist_of` map (fun d => Spec.target d (coords node)) (Spec.order ad).
Proof.
  intros Hwf. unfold Spec.neighbors.
  induction (Spec.order ad) as [|d l IH]; simpl; [constructor|].
  destruct (entry_cases g h dcc (coords node) d Hwf)
    as [[_ ->] | (_ & v & -> & Hv & _)]; simpl.
  - by apply sublist_cons.
  - rewrite Hv. by apply sublist_skip.
Qed.

Lemma straight_in_order (ad : bool) (s : Spec.Side) :
  Spec.Straight s ∈ Spec.order ad.
Proof.
  unfold Spec.order. apply elem_of_app. left.
  destruct s; unfold Spec.up, Spec.right, Spec.down, Spec.left;
    repeat ((by apply list_elem_of_here) || apply list_elem_of_further).
Qed.

Lemma diagonal_in_order (a b : Spec.Side) :
  (a, b) ∈ diagonals -> Spec.Diagonal a b ∈ Spec.order true.
Proof.
  unfold diagonals, Spec.order. intros H. apply elem_of_app. right.
  repeat (apply elem_of_cons in H as [[= -> ->] | H]);
    [| | | | by apply elem_of_nil in H];
    repeat ((by apply list_elem_of_here) || apply list_elem_of_further).
Qed.

Lemma passes_walk (g : Grid.t) (h : Heap) (p : Z * Z) (s : Spec.Side) :
  wf g h = true ->
  passes g h p s <-> walk g h p.1 p.2 (Spec.tag s) = true.
Proof.
  intros Hwf. unfold passes. rewrite isWalkableAt_wf by done.
  split; [by intros [= ->] | by intros ->].
Qed.

Lemma four_pass_checks (g : Grid.t) (h : Heap) (p : Z * Z) (a b : Spec.Side) :
  wf g h = true ->
  four_pass g h p a b <-> Spec.four_checks g h p a b = true.
Proof.
  intros Hwf. unfold four_pass, Spec.four_checks, Spec.step_ok.
  cbv zeta. rewrite !passes_walk by done.
  rewrite (towards_comm b a p), !andb_true_iff. tauto.
Qed.

(** The orthogonal neighbours present are the successful moves. *)
Lemma has_straight (g : Grid.t) (h : Heap) (node : Node.view) (ad dcc : bool)
    (s : Spec.Side) :
  wf g h = true ->
  has (Spec.neighbors g h node ad dcc) (Spec.towards s (coords node)) <->
  Spec.step_ok g h (coords node) s = true.
Proof.
  intros Hwf.
  rewrite (has_target g h node ad dcc (Spec.Straight s) Hwf
             (straight_in_order true s)).
  simpl. pose proof (straight_in_order ad s). tauto.
Qed.

Lemma succeeded_step_ok (g : Grid.t) (h : Heap) (p : Z * Z) (s : Spec.Side) :
  wf g h = true ->
  succeeded g h p s <-> Spec.step_ok g h p s = true.
Proof.
  intros Hwf. unfold succeeded, Spec.step_ok.
  by rewrite !passes_walk, andb_true_iff by done.
Qed.

Lemma eligible_diagonal_spec (g : Grid.t) (h : Heap) (p : Z * Z) (dcc : bool)
    (a b : Spec.Side) :
  wf g h = true ->
  eligible_diagonal dcc g h p a b <->
  Spec.eligible dcc (Spec.step_ok g h p a) (Spec.step_ok g h p b) = true.
Proof.
  intros Hwf. unfold eligible_diagonal, Spec.eligible.
  destruct dcc; rewrite !succeeded_step_ok by done.
  - by rewrite andb_true_iff.
  - by rewrite orb_true_iff.
Qed.

(** A diagonal neighbour is present exactly when the checks of its framing
    moves make it eligible and its four checks pass. *)
Lemma has_diagonal_checks (g : Grid.t) (h : Heap) (node : Node.view)
    (dcc : bool) (a b : Spec.Side) :
  wf g h = true -> (a, b) ∈ diagonals ->
  has (Spec.neighbors g h node true dcc)
      (Spec.target (Spec.Diagonal a b) (coords node)) <->
  eligible_diagonal dcc g h (coords node) a b
  /\ four_pass g h (coords node) a b.
Proof.
  intros Hwf Hab.
  rewrite (has_target g h node true dcc (Spec.Diagonal a b) Hwf
             (diagonal_in_order a b Hab)).
  rewrite eligible_diagonal_spec, four_pass_checks by done.
  simpl. rewrite andb_true_iff.
  pose proof (diagonal_in_order a b Hab). tauto.
Qed.

Lemma getNodeAt_view_at (g : Grid.t) (h : Heap) (x y : Z) (v : Node.view) :
  wf g h = true -> isInside g x y = true ->
  view_at g h x y = Some v -> getNodeAt g x y h = Ok v.
Proof.
  intros Hwf Hin Hv.
  destruct (wf_inside_cell g h x y Hwf Hin) as (l & n & Hl & Hn & Hc & _).
  unfold getNodeAt, view_at in *. rewrite Hl. simpl. unfold deref.
  rewrite Hn. simpl. rewrite Hc in Hv. simpl in Hv. congruence.
Qed.

(** Every view of the enumeration is the versioned read of a cell inside
    the grid. *)
Lemma neighbors_inside (g : Grid.t) (h : Heap) (node : Node.view)
    (ad dcc : bool) (v : Node.view) :
  wf g h = true -> v ∈ Spec.neighbors g h node ad dcc ->
  isInside g (Node.vx v) (Node.vy v) = true
  /\ getNodeAt g (Node.vx v) (Node.vy v) h = Ok v.
Proof.
  intros Hwf (d & _ & [Hinc Hv]%entry_elem)%elem_of_concat_map.
  apply included_inside in Hinc.
  destruct (view_at_inside g h _ _ Hwf Hinc) as (v' & Hv' & Hx & Hy & _).
  assert (v' = v) as -> by congruence.
  rewrite Hx, Hy. split; [done|]. by apply getNodeAt_view_at.
Qed.

(** ** The claims on the neighbour enumeration *)

(** C1. On a well-formed grid and for a node inside it, [getNeighbors]
    returns; the coordinates of the result follow the order up, right,
    down, left, then with diagonals up-left, up-right, down-right,
    down-left, the directions left out being absent; every element is the
    versioned read of its cell; and the orthogonal neighbour on side [s] is
    present iff (a) the neighbour's cell is walkable for the tag of its
    side facing the origin and (b) the origin is walkable for the tag of
    side [s].  On the 4x4 grid without obstacles the node (1,1) has its
    eight neighbours, in that order. *)
Theorem getNeighbors_orthogonal_order :
  (forall (g : Grid.t) (h : Heap) (node : Node.view) (ad dcc : bool),
     wf g h = true ->
     isInside g (Node.vx node) (Node.vy node) = true ->
     let x := Node.vx node in
     let y := Node.vy node in
     exists ns,
       getNeighbors g node ad dcc h = Ok ns /\
       map coords ns `sublist_of`
         ([(x, y - 1); (x + 1, y); (x, y + 1); (x - 1, y)]
          ++ (if ad
              then [(x - 1, y - 1); (x + 1, y - 1);
                    (x + 1, y + 1); (x - 1, y + 1)]
              else [])) /\
       (forall v, v ∈ ns -> getNodeAt g (Node.vx v) (Node.vy v) h = Ok v) /\
       (forall s,
          has ns (Spec.towards s (x, y)) <->
          passes g h (Spec.towards s (x, y)) (Spec.opposite s)
          /\ passes g h (x, y) s))
  /\ getNeighbors open4.1 (open_view 1 1) true false open4.2
     = Ok [open_view 1 0; open_view 2 1; open_view 1 2; open_view 0 1;
           open_view 0 0; open_view 2 0; open_view 2 2; open_view 0 2].
Proof.
  split; [|by vm_compute].
  intros g h node ad dcc Hwf _ x y.
  exists (Spec.neighbors g h node ad dcc).
  split; [by apply getNeighbors_refines|]. split; [|split].
  - pose proof (neighbors_sublist g h node ad dcc Hwf) as H.
    destruct ad; exact H.
  - intros v Hv. by apply (neighbors_inside g h node ad dcc).
  - intros s. change (x, y) with (coords node).
    rewrite has_straight, !passes_walk by done.
    unfold Spec.step_ok. by rewrite andb_true_iff.
Qed.

Lemma getNeighbors_orthogonal_order_witness :
  exists ns,
    getNeighbors open4.1 (open_view 0 3) true true open4.2 = Ok ns /\
    map coords ns `sublist_of`
      ([(0, 2); (1, 3); (0, 4); (-1, 3)]
       ++ [(-1, 2); (1, 2); (1, 4); (-1, 4)]) /\
    (forall v, v ∈ ns ->
       getNodeAt open4.1 (Node.vx v) (Node.vy v) open4.2 = Ok v) /\
    (forall s,
       has ns (Spec.towards s (0, 3)) <->
       passes open4.1 open4.2 (Spec.towards s (0, 3)) (Spec.opposite s)
       /\ passes open4.1 open4.2 (0, 3) s).
Proof.
  apply (proj1 getNeighbors_orthogonal_order
           open4.1 open4.2 (open_view 0 3) true true);
    vm_compute; reflexivity.
Defined.

(** C2. With diagonals requested, [getNeighbors] returns, and each of the
    four diagonals is eligible by its framing orthogonal moves: a move
    succeeds when its two [isWalkableAt] checks answer [true], which is
    when its neighbour is in the result; a diagonal neighbour is in the
    result only if both framing moves succeeded when [dontCrossCorners] is
    true, at least one of them when it is false; and when the four checks
    of the diagonal pass, it is in the result exactly in that case. *)
Theorem getNeighbors_diagonal_eligibility
    (g : Grid.t) (h : Heap) (node : Node.view) (dcc : bool) :
  wf g h = true ->
  exists ns,
    getNeighbors g node true dcc h = Ok ns /\
    let p := coords node in
    (forall s, has ns (Spec.towards s p) <-> succeeded g h p s) /\
    forall a b, (a, b) ∈ diagonals ->
      let present := has ns (Spec.target (Spec.Diagonal a b) p) in
      let eligible :=
        if dcc
        then succeeded g h p a /\ succeeded g h p b
        else succeeded g h p a \/ succeeded g h p b in
      (present -> eligible)
      /\ (four_pass g h p a b -> (present <-> eligible)).
Proof.
  intros Hwf. exists (Spec.neighbors g h node true dcc).
  split; [by apply getNeighbors_refines|].
  intros p. split.
  - intros s. unfold p. by rewrite has_straight, succeeded_step_ok.
  - intros a b Hab present eligible.
    pose proof (has_diagonal_checks g h node dcc a b Hwf Hab) as H.
    fold p in H. fold present in H.
    change (eligible_diagonal dcc g h p a b) with eligible in H.
    tauto.
Qed.

Lemma getNeighbors_diagonal_eligibility_witness :
  (exists ns,
     getNeighbors tagged4.1 (open_view 1 1) true false tagged4.2 = Ok ns /\
     ~ has ns (1, 0) /\ has ns (0, 1) /\ has ns (0, 0))
  /\ (exists ns,
        getNeighbors tagged4.1 (open_view 1 1) true true tagged4.2 = Ok ns /\
        ~ has ns (1, 0) /\ has ns (0, 1) /\ ~ has ns (0, 0)).
Proof.
  assert (~ succeeded tagged4.1 tagged4.2 (1, 1) Spec.Top) as Hup.
  { intros [_ H]. vm_compute in H. discriminate H. }
  assert (succeeded tagged4.1 tagged4.2 (1, 1) Spec.Left) as Hleft.
  { split; vm_compute; reflexivity. }
  assert ((Spec.Left, Spec.Top) ∈ diagonals) as Hin.
  { apply list_elem_of_here. }
  split.
  - destruct (getNeighbors_diagonal_eligibility
                tagged4.1 tagged4.2 (open_view 1 1) false)
      as (ns & Hns & Hs & Hd); [vm_compute; reflexivity|].
    exists ns. split; [exact Hns|]. split; [|split].
    + intros H. apply Hup. apply (proj1 (Hs Spec.Top)). exact H.
    + apply (proj2 (Hs Spec.Left)). exact Hleft.
    + apply (proj2 (Hd Spec.Left Spec.Top Hin)).
      * repeat split; vm_compute; reflexivity.
      * left. exact Hleft.
  - destruct (getNeighbors_diagonal_eligibility
                tagged4.1 tagged4.2 (open_view 1 1) true)
      as (ns & Hns & Hs & Hd); [vm_compute; reflexivity|].
    exists ns. split; [exact Hns|]. split; [|split].
    + intros H. apply Hup. apply (proj1 (Hs Spec.Top)). exact H.
    + apply (proj2 (Hs Spec.Left)). exact Hleft.
    + intros H. apply Hup.
      apply (proj1 (Hd Spec.Left Spec.Top Hin)) in H. exact (proj2 H).
Defined.

(** C3. With diagonals requested, a diagonal that is eligible, by the
    checks of its framing moves and the corner policy, is in the result
    iff its four checks pass: the diagonal target and the two orthogonal
    cells the move passes between, each asked with the tag of the border
    it shares with the other; and a diagonal that is not eligible is not
    in the result. *)
Theorem getNeighbors_diagonal_checks
    (g : Grid.t) (h : Heap) (node : Node.view) (dcc : bool) :
  wf g h = true ->
  exists ns,
    getNeighbors g node true dcc h = Ok ns /\
    forall a b, (a, b) ∈ diagonals ->
      let p := coords node in
      let t := Spec.target (Spec.Diagonal a b) p in
      (eligible_diagonal dcc g h p a b ->
       (has ns t <->
        isWalkableAt g t.1 t.2 (Spec.tag (Spec.opposite b)) h = Ok true /\
        isWalkableAt g (Spec.towards a p).1 (Spec.towards a p).2
          (Spec.tag b) h = Ok true /\
        isWalkableAt g t.1 t.2 (Spec.tag (Spec.opposite a)) h = Ok true /\
        isWalkableAt g (Spec.towards b p).1 (Spec.towards b p).2
          (Spec.tag a) h = Ok true))
      /\ (~ eligible_diagonal dcc g h p a b -> ~ has ns t).
Proof.
  intros Hwf. exists (Spec.neighbors g h node true dcc).
  split; [by apply getNeighbors_refines|].
  intros a b Hab p t.
  pose proof (has_diagonal_checks g h node dcc a b Hwf Hab) as H.
  fold p in H. fold t in H. rewrite H.
  unfold four_pass, passes. cbv zeta. fold t. tauto.
Qed.

Lemma getNeighbors_diagonal_checks_witness :
  (exists ns,
     getNeighbors tagged4.1 (open_view 1 1) true false tagged4.2 = Ok ns /\
     (has ns (0, 0) <->
      isWalkableAt tagged4.1 0 0 (Some "bottom"%string) tagged4.2 = Ok true /\
      isWalkableAt tagged4.1 0 1 (Some "top"%string) tagged4.2 = Ok true /\
      isWalkableAt tagged4.1 0 0 (Some "right"%string) tagged4.2 = Ok true /\
      isWalkableAt tagged4.1 1 0 (Some "left"%string) tagged4.2 = Ok true))
  /\ (exists ns,
        getNeighbors tagged4.1 (open_view 1 1) true true tagged4.2 = Ok ns /\
        ~ has ns (0, 0)).
Proof.
  assert ((Spec.Left, Spec.Top) ∈ diagonals) as Hin.
  { apply list_elem_of_here. }
  split.
  - destruct (getNeighbors_diagonal_checks
                tagged4.1 tagged4.2 (open_view 1 1) false)
      as (ns & Hns & Hd); [vm_compute; reflexivity|].
    exists ns. split; [exact Hns|].
    apply (proj1 (Hd Spec.Left Spec.Top Hin)).
    left. split; vm_compute; reflexivity.
  - destruct (getNeighbors_diagonal_checks
                tagged4.1 tagged4.2 (open_view 1 1) true)
      as (ns & Hns & Hd); [vm_compute; reflexivity|].
    exists ns. split; [exact Hns|].
    apply (proj2 (Hd Spec.Left Spec.Top Hin)).
    intros [_ [_ H]]. vm_compute in H. discriminate H.
Defined.

(** C10. With diagonals requested and either corner policy, when no
    orthogonal neighbour is present the result is empty, whatever the
    diagonal cells are. *)
Theorem getNeighbors_no_orthogonal_is_empty
    (g : Grid.t) (h : Heap) (node : Node.view) (dcc : bool) :
  wf g h = true ->
  exists ns,
    getNeighbors g node true dcc h = Ok ns /\
    ((forall s, ~ has ns (Spec.towards s (coords node))) -> ns = []).
Proof.
  intros Hwf. exists (Spec.neighbors g h node true dcc).
  split; [by apply getNeighbors_refines|].
  intros Hnone.
  assert (forall s, Spec.step_ok g h (coords node) s = false) as Hs.
  { intros s. apply not_true_is_false. intros Hok.
    apply (Hnone s). by apply has_straight. }
  unfold Spec.neighbors, Spec.order, Spec.entry, Spec.included,
    Spec.eligible, Spec.up, Spec.right, Spec.down, Spec.left,
    Spec.up_left, Spec.up_right, Spec.down_right, Spec.down_left.
  simpl. rewrite !Hs. by destruct dcc.
Qed.

Lemma getNeighbors_no_orthogonal_is_empty_witness :
  (forall a b, (a, b) ∈ diagonals -> four_pass ring3.1 ring3.2 (1, 1) a b)
  /\ exists ns,
       getNeighbors ring3.1 (open_view 1 1) true false ring3.2 = Ok ns /\
       ((forall s, ~ has ns (Spec.towards s (1, 1))) -> ns = []).
Proof.
  split.
  - intros a b Hab. unfold diagonals in Hab.
    repeat (apply elem_of_cons in Hab as [[= -> ->] | Hab]);
      [| | | | by apply elem_of_nil in Hab];
      repeat split; vm_compute; reflexivity.
  - apply (getNeighbors_no_orthogonal_is_empty
             ring3.1 ring3.2 (open_view 1 1) false).
    vm_compute; reflexivity.
Defined.

(** C9. On a well-formed grid [isWalkableAt] and [getNeighbors] return for
    every position and every node: no index into the node array falls
    outside it (such an index is what throws in the embedding).  A [true]
    answer of [isWalkableAt], the guard of every index in [getNeighbors],
    implies that the position is inside; and every neighbour returned is
    inside, the directions that leave the grid being absent. *)
Theorem queries_never_leave_the_grid (g : Grid.t) (h : Heap) :
  wf g h = true ->
  (forall x y border,
     exists r, isWalkableAt g x y border h = Ok r
               /\ (r = true -> isInside g x y = true))
  /\ (forall node ad dcc,
        exists ns, getNeighbors g node ad dcc h = Ok ns
                   /\ forall v, v ∈ ns ->
                        isInside g (Node.vx v) (Node.vy v) = true).
Proof.
  intros Hwf. split.
  - intros x y border. exists (walk g h x y border).
    split; [by apply isWalkableAt_wf | apply walk_inside].
  - intros node ad dcc. exists (Spec.neighbors g h node ad dcc).
    split; [by apply getNeighbors_refines|].
    intros v Hv. by apply (neighbors_inside g h node ad dcc v Hwf).
Qed.

Lemma queries_never_leave_the_grid_witness :
  (forall x y border,
     exists r, isWalkableAt open4.1 x y border open4.2 = Ok r
               /\ (r = true -> isInside open4.1 x y = true))
  /\ (forall node ad dcc,
        exists ns, getNeighbors open4.1 node ad dcc open4.2 = Ok ns
                   /\ forall v, v ∈ ns ->
                        isInside open4.1 (Node.vx v) (Node.vy v) = true).
Proof.
  apply (queries_never_leave_the_grid open4.1 open4.2).
  vm_compute; reflexivity.
Defined.

(** ** Bounds and walkability *)

Lemma differs_spec (tag : string) (border : option string) :
  differs tag border = bool_decide (Some tag <> border).
Proof.
  unfold differs. destruct border as [b|].
  - destruct (String.eqb tag b) eqn:E; simpl.
    + apply String.eqb_eq in E as ->. by rewrite bool_decide_false by auto.
    + apply String.eqb_neq in E. rewrite bool_decide_true; [done|congruence].
  - by rewrite bool_decide_true.
Qed.

(** C6. [isInside] is the bounds test; outside the bounds [isWalkableAt] is
    [false] for every grid and store; inside a well-formed grid it reads the
    [walkable] attribute of the cell's node: a tag answers whether it
    differs from [border], so [true] when no border is given, and a boolean
    is returned as it is. *)
Theorem isInside_isWalkableAt_contract
    (g : Grid.t) (h : Heap) (x y : Z) (border : option string) :
  (isInside g x y = true <-> (0 <= x < width g) /\ (0 <= y < height g))
  /\ (isInside g x y = false -> isWalkableAt g x y border h = Ok false)
  /\ (wf g h = true -> isInside g x y = true ->
      exists n,
        cell g h x y = Some n /\
        isWalkableAt g x y border h
        = Ok match Node.walkable n with
             | Node.WTag tag => bool_decide (Some tag <> border)
             | Node.WBool b => b
             end /\
        (forall tag, Node.walkable n = Node.WTag tag ->
                     isWalkableAt g x y None h = Ok true)).
Proof.
  split; [apply isInside_spec|]. split.
  - intros Hout. unfold isWalkableAt. by rewrite Hout.
  - intros Hwf Hin.
    destruct (wf_inside_cell g h x y Hwf Hin) as (l & n & _ & _ & Hc & _).
    exists n. split; [done|].
    rewrite !isWalkableAt_wf by done. unfold walk. rewrite Hin, Hc. simpl.
    split.
    + destruct (Node.walkable n); simpl; [done|]. by rewrite differs_spec.
    + by intros tag ->.
Qed.

Lemma isInside_isWalkableAt_contract_witness :
  exists n,
    cell tagged4.1 tagged4.2 1 1 = Some n /\
    isWalkableAt tagged4.1 1 1 (Some "top"%string) tagged4.2
    = Ok match Node.walkable n with
         | Node.WTag tag => bool_decide (Some tag <> Some "top"%string)
         | Node.WBool b => b
         end /\
    (forall tag, Node.walkable n = Node.WTag tag ->
                 isWalkableAt tagged4.1 1 1 None tagged4.2 = Ok true).
Proof.
  apply (proj2 (proj2 (isInside_isWalkableAt_contract
                         tagged4.1 tagged4.2 1 1 (Some "top"%string))));
    vm_compute; reflexivity.
Defined.

(** ** The loops of the construction *)

Lemma bind_ok {A B} (m : M A) (k : A -> M B) (h h' : Heap) (a : A) :
  m h = (Ok a, h') -> bind m k h = k a h'.
Proof. unfold bind. by intros ->. Qed.

Lemma bind_throw {A B} (m : M A) (k : A -> M B) (h h' : Heap) (e : JsError) :
  m h = (Throw e, h') -> bind m k h = (Throw e, h').
Proof. unfold bind. by intros ->. Qed.

Lemma new_Array_ok (n : Z) (h : Heap) :
  array_length n -> new_Array n h = (Ok tt, h).
Proof.
  unfold array_length, new_Array. intros Hn.
  destruct (0 <=? n) eqn:E1; [|lia]. destruct (n <? 2 ^ 32) eqn:E2; [done|lia].
Qed.

Lemma new_Array_throw (n : Z) (h : Heap) :
  ~ array_length n -> new_Array n h = (Throw RangeError, h).
Proof.
  unfold array_length, new_Array. intros Hn.
  destruct (0 <=? n) eqn:E1; [|done].
  destruct (n <? 2 ^ 32) eqn:E2; [lia|done].
Qed.

(** A loop with an invariant on the store. *)
Lemma for_each_inv (I : nat -> Heap -> Prop) (n : nat) (i0 : Z)
    (body : Z -> M unit) (h : Heap) :
  I 0%nat h ->
  (forall k hk, (k < n)%nat -> I k hk ->
     exists hk', body (i0 + Z.of_nat k) hk = (Ok tt, hk') /\ I (S k) hk') ->
  exists h', for_each n i0 body h = (Ok tt, h') /\ I n h'.
Proof.
  revert I i0 h. induction n as [|n IH]; intros I i0 h H0 Hstep; simpl.
  - by exists h.
  - destruct (Hstep 0%nat h) as (h1 & Hbody & H1); [lia | done |].
    rewrite Z.add_0_r in Hbody. rewrite (bind_ok _ _ _ _ _ Hbody).
    apply (IH (fun k => I (S k)) (i0 + 1) h1 H1).
    intros k hk Hk Hinv.
    replace (i0 + 1 + Z.of_nat k) with (i0 + Z.of_nat (S k)) by lia.
    apply Hstep; [lia | done].
Qed.

Lemma length_row_nodes (n : nat) (j i : Z)
    (W : Z -> Z -> option Node.Walkable) :
  length (row_nodes n j i W) = n.
Proof. revert j; induction n as [|n IH]; intros j; simpl; auto. Qed.

Section Fill.

(** The third argument of [new Node] is read from the store without
    changing it, and the nodes allocated since [h0] do not change it. *)
Variables (width height : Z) (h0 : Heap).
Variable walkable : Z -> Z -> M (option Node.Walkable).
Variable W : Z -> Z -> option Node.Walkable.
Hypothesis walkable_reads : forall i j hc,
  0 <= i < height -> 0 <= j < width -> h0 `prefix_of` hc ->
  walkable j i hc = (Ok (W j i), hc).

Lemma fill_row (i : Z) (n : nat) (j0 : Z) (hc : Heap) :
  0 <= i < height -> 0 <= j0 -> j0 + Z.of_nat n <= width ->
  h0 `prefix_of` hc ->
  for_fill n j0 (fun j => do w <- walkable j i; alloc (Node.new j i w)) hc
  = (Ok (seq (length hc) n), hc ++ row_nodes n j0 i W).
Proof.
  intros Hi. revert j0 hc.
  induction n as [|n IH]; intros j0 hc Hj0 Hn Hpre; simpl.
  - by rewrite app_nil_r.
  - rewrite (bind_ok _ _ hc (hc ++ [Node.new j0 i (W j0 i)]) (length hc)).
    2:{ rewrite (bind_ok _ _ hc hc (W j0 i));
          [done | apply walkable_reads; [done | lia | done]]. }
    rewrite (bind_ok _ _ _ _ _
               (IH (j0 + 1) (hc ++ [Node.new j0 i (W j0 i)])
                  ltac:(lia) ltac:(lia)
                  ltac:(by apply prefix_app_r))).
    unfold ret. rewrite length_app, <- app_assoc. simpl.
    by rewrite Nat.add_1_r.
Qed.

Lemma fill_rows (m : nat) (i0 : Z) (hc : Heap) :
  (m <> 0%nat -> array_length width) ->
  0 <= i0 -> i0 + Z.of_nat m <= height -> h0 `prefix_of` hc ->
  for_fill m i0 (fun i =>
    do _ <- new_Array width;
    for_fill (Z.to_nat width) 0 (fun j =>
      do w <- walkable j i; alloc (Node.new j i w))) hc
  = (Ok (grid_locs m (length hc) (Z.to_nat width)),
     hc ++ grid_nodes m i0 (Z.to_nat width) W).
Proof.
  intros Hw. revert i0 hc.
  induction m as [|m IH]; intros i0 hc Hi0 Hm Hpre; simpl.
  - by rewrite app_nil_r.
  - assert (array_length width) as Hw' by (by apply Hw).
    pose proof (length_row_nodes (Z.to_nat width) 0 i0 W) as Hlen.
    rewrite (bind_ok _ _ hc
               (hc ++ row_nodes (Z.to_nat width) 0 i0 W)
               (seq (length hc) (Z.to_nat width))).
    2:{ rewrite (bind_ok _ _ _ _ _ (new_Array_ok width hc Hw')).
        apply fill_row; [lia | lia | | done].
        unfold array_length in Hw'. lia. }
    rewrite (bind_ok _ _ _ _ _
               (IH ltac:(intros _; exact Hw') (i0 + 1)
                  (hc ++ row_nodes (Z.to_nat width) 0 i0 W)
                  ltac:(lia) ltac:(lia) ltac:(by apply prefix_app_r))).
    unfold ret. by rewrite length_app, Hlen, <- app_assoc.
Qed.

Lemma fill_nodes_eq :
  array_length height -> (height <> 0 -> array_length width) ->
  fill_nodes width height walkable h0
  = (Ok (grid_locs (Z.to_nat height) (length h0) (Z.to_nat width)),
     h0 ++ grid_nodes (Z.to_nat height) 0 (Z.to_nat width) W).
Proof.
  intros Hh Hw. unfold fill_nodes.
  rewrite (bind_ok _ _ _ _ _ (new_Array_ok height h0 Hh)).
  unfold array_length in Hh.
  apply fill_rows; [intros ?; apply Hw; lia | lia | lia | done].
Qed.

End Fill.

Lemma row_nodes_lookup (n : nat) (j0 i : Z)
    (W : Z -> Z -> option Node.Walkable) (k : nat) :
  (k < n)%nat ->
  row_nodes n j0 i W !! k
  = Some (Node.new (j0 + Z.of_nat k) i (W (j0 + Z.of_nat k) i)).
Proof.
  revert j0 k. induction n as [|n IH]; intros j0 [|k] Hk; try lia.
  - simpl. by rewrite Z.add_0_r.
  - change (row_nodes n (j0 + 1) i W !! k = Some
              (Node.new (j0 + Z.of_nat (S k)) i (W (j0 + Z.of_nat (S k)) i))).
    rewrite IH by lia.
    by replace (j0 + 1 + Z.of_nat k) with (j0 + Z.of_nat (S k)) by lia.
Qed.

Lemma length_grid_locs (m base wn : nat) : length (grid_locs m base wn) = m.
Proof. revert base; induction m; intros; simpl; auto. Qed.

Lemma grid_locs_lookup (m base wn : nat) (i0 : Z)
    (W : Z -> Z -> option Node.Walkable) (i : nat) (row : list loc)
    (j : nat) (l : loc) (h : Heap) :
  grid_locs m base wn !! i = Some row -> row !! j = Some l ->
  length h = base ->
  length row = wn /\ (base <= l)%nat /\
  (h ++ grid_nodes m i0 wn W) !! l
  = Some (Node.new (Z.of_nat j) (i0 + Z.of_nat i)
            (W (Z.of_nat j) (i0 + Z.of_nat i))).
Proof.
  revert base i0 i h.
  induction m as [|m IH]; intros base i0 [|i] h Hrow Hl Hlen; try done.
  - simpl in Hrow. injection Hrow as <-. apply lookup_seq in Hl as [-> Hj].
    rewrite length_seq. split; [done|]. split; [lia|].
    cbn [grid_nodes]. rewrite lookup_app_r by lia.
    replace (base + j - length h)%nat with j by lia.
    rewrite lookup_app_l by (by rewrite length_row_nodes).
    rewrite row_nodes_lookup by done.
    by rewrite Z.add_0_l, Z.add_0_r.
  - change (grid_locs m (base + wn) wn !! i = Some row) in Hrow.
    destruct (IH (base + wn)%nat (i0 + 1) i
                (h ++ row_nodes wn 0 i0 W) Hrow Hl) as (Hr & Hb & Hn).
    { by rewrite length_app, length_row_nodes, Hlen. }
    split; [done|]. split; [lia|].
    cbn [grid_nodes]. rewrite <- app_assoc in Hn. rewrite Hn.
    by replace (i0 + 1 + Z.of_nat i) with (i0 + Z.of_nat (S i)) by lia.
Qed.

Lemma grid_locs_row (m base wn i : nat) (row : list loc) :
  grid_locs m base wn !! i = Some row -> length row = wn.
Proof.
  revert base i. induction m as [|m IH]; intros base [|i] Hrow; try done.
  - simpl in Hrow. injection Hrow as <-. apply length_seq.
  - by apply (IH (base + wn)%nat i).
Qed.

(** The allocation loops succeed on array lengths and fill the array. *)
Lemma fill_nodes_ok (width height : Z) (h0 : Heap)
    (walkable : Z -> Z -> M (option Node.Walkable))
    (W : Z -> Z -> option Node.Walkable) :
  (forall i j hc, 0 <= i < height -> 0 <= j < width -> h0 `prefix_of` hc ->
                  walkable j i hc = (Ok (W j i), hc)) ->
  array_length height -> (height <> 0 -> array_length width) ->
  exists nodes h1,
    fill_nodes width height walkable h0 = (Ok nodes, h1)
    /\ filled W width height h0 nodes h1.
Proof.
  intros Hreads Hh Hw.
  exists (grid_locs (Z.to_nat height) (length h0) (Z.to_nat width)),
    (h0 ++ grid_nodes (Z.to_nat height) 0 (Z.to_nat width) W).
  split; [by apply (fill_nodes_eq width height h0 walkable W)|].
  split; [by apply prefix_app_r|]. split; [apply length_grid_locs|].
  intros i row Hrow. split.
  - by apply grid_locs_row in Hrow.
  - intros j l Hl.
    destruct (grid_locs_lookup _ _ _ 0 W i row j l h0 Hrow Hl eq_refl)
      as (_ & Hb & Hn).
    split; [done|]. by rewrite Z.add_0_l in Hn.
Qed.

Lemma index_of_nat {A} (a : list A) (i : nat) : index a (Z.of_nat i) = a !! i.
Proof.
  unfold index. destruct (0 <=? Z.of_nat i) eqn:E.
  - by rewrite Nat2Z.id.
  - apply Z.leb_gt in E. lia.
Qed.

Lemma node_ref_lookup (nodes : list (list loc)) (i j : nat)
    (row : list loc) (l : loc) :
  nodes !! i = Some row -> row !! j = Some l ->
  node_ref nodes (Z.of_nat i) (Z.of_nat j) = Ok l.
Proof.
  intros Hrow Hl. unfold node_ref, index2.
  rewrite index_of_nat, Hrow. simpl. by rewrite index_of_nat, Hl.
Qed.

Lemma done_before_step (a b i j : Z) :
  (i, j) <> (a, b) -> done_before a (b + 1) i j = done_before a b i j.
Proof.
  intros Hne. unfold done_before. f_equal.
  destruct (i =? a) eqn:Ei; [|done]. apply Z.eqb_eq in Ei as ->. simpl.
  assert (j <> b) by congruence.
  destruct (j <? b + 1) eqn:E1, (j <? b) eqn:E2; try done; lia.
Qed.

Lemma done_before_here (a b : Z) : done_before a (b + 1) a b = true.
Proof.
  unfold done_before. rewrite Z.eqb_refl.
  destruct (b <? b + 1) eqn:E; [|lia]. by rewrite orb_true_r.
Qed.

Lemma done_before_row (a w i j : Z) :
  0 <= j < w -> done_before a w i j = done_before (a + 1) 0 i j.
Proof.
  intros Hj. unfold done_before.
  destruct (i <? a) eqn:E1, (i =? a) eqn:E2, (j <? w) eqn:E3,
    (i <? a + 1) eqn:E4, (i =? a + 1) eqn:E5, (j <? 0) eqn:E6;
    try done; lia.
Qed.

Section Mark.

Variables (width height : Z) (matrix : Matrix).
Variables (h0 : Heap) (nodes : list (list loc)) (h1 : Heap).
Hypothesis nodes_filled : filled (fun _ _ => None) width height h0 nodes h1.
Hypothesis matrix_rows : length matrix = Z.to_nat height.

Lemma marked_start : marked matrix h0 nodes h1 0 0 h1.
Proof.
  destruct nodes_filled as (_ & _ & Hcells).
  split; [done|]. split; [done|].
  intros i row j l Hrow Hl.
  destruct (Hcells i row Hrow) as [_ Hrowcells].
  destruct (Hrowcells j l Hl) as [_ Hn]. rewrite Hn.
  unfold done_before.
  rewrite (proj2 (Z.ltb_ge (Z.of_nat i) 0)) by lia.
  rewrite (proj2 (Z.ltb_ge (Z.of_nat j) 0)) by lia.
  by rewrite andb_false_r.
Qed.

(** One turn of the inner loop. *)
Lemma mark_step (ka kb : nat) (h : Heap) :
  (ka < Z.to_nat height)%nat -> (kb < Z.to_nat width)%nat ->
  marked matrix h0 nodes h1 (Z.of_nat ka) (Z.of_nat kb) h ->
  exists h',
    (do cell <- read (fun _ => index2 matrix (Z.of_nat ka) (Z.of_nat kb));
     if truthy cell then
       do l <- read (fun _ => node_ref nodes (Z.of_nat ka) (Z.of_nat kb));
       assign_walkable l (Node.WBool false)
     else ret tt) h = (Ok tt, h')
    /\ marked matrix h0 nodes h1 (Z.of_nat ka) (Z.of_nat (S kb)) h'.
Proof.
  intros Hka Hkb (Hlen & Hold & Hcells).
  destruct nodes_filled as (_ & Hrows & Hfilled).
  destruct (lookup_lt_is_Some_2 nodes ka) as [rowa Hrowa]; [lia|].
  destruct (Hfilled ka rowa Hrowa) as [Hlena Hrowcells].
  destruct (lookup_lt_is_Some_2 rowa kb) as [l Hl]; [lia|].
  destruct (Hrowcells kb l Hl) as [Hfresh _].
  destruct (lookup_lt_is_Some_2 matrix ka) as [mrow Hmrow]; [lia|].
  assert (index2 matrix (Z.of_nat ka) (Z.of_nat kb)
          = Ok (matrix_at matrix (Z.of_nat ka) (Z.of_nat kb))) as Hcell.
  { unfold index2, matrix_at. by rewrite index_of_nat, Hmrow. }
  assert (forall i row j l', nodes !! i = Some row -> row !! j = Some l' ->
            (Z.of_nat i, Z.of_nat j) = (Z.of_nat ka, Z.of_nat kb) -> l' = l)
    as Hsame.
  { intros i row j l' Hrow Hl' [= Hi Hj].
    apply Nat2Z.inj in Hi, Hj. subst. congruence. }
  replace (Z.of_nat (S kb)) with (Z.of_nat kb + 1) by lia.
  unfold bind at 1, read at 1. rewrite Hcell.
  destruct (truthy (matrix_at matrix (Z.of_nat ka) (Z.of_nat kb))) eqn:Ht.
  - unfold bind, read. rewrite (node_ref_lookup nodes ka kb rowa l Hrowa Hl).
    unfold assign_walkable. rewrite (Hcells ka rowa kb l Hrowa Hl).
    eexists. split; [done|]. split; [|split].
    + by rewrite length_insert.
    + intros l' Hl'. rewrite list_lookup_insert_ne by lia. by apply Hold.
    + intros i row j l' Hrow Hl'.
      destruct (decide (l' = l)) as [->|Hne].
      * pose proof (Hcells i row j l Hrow Hl') as H1.
        rewrite (Hcells ka rowa kb l Hrowa Hl) in H1.
        injection H1 as Hj Hi _. rewrite <- Hi, <- Hj.
        rewrite list_lookup_insert_eq
          by (apply lookup_lt_Some in H1 || idtac;
              apply (lookup_lt_Some h l _ (Hcells ka rowa kb l Hrowa Hl))).
        rewrite done_before_here, Ht. done.
      * rewrite list_lookup_insert_ne by done.
        rewrite (Hcells i row j l' Hrow Hl').
        rewrite done_before_step; [done|].
        intros Heq. apply Hne. by apply (Hsame i row j).
  - exists h. split; [done|]. split; [done|]. split; [done|].
    intros i row j l' Hrow Hl'. rewrite (Hcells i row j l' Hrow Hl').
    destruct (decide ((Z.of_nat i, Z.of_nat j) = (Z.of_nat ka, Z.of_nat kb)))
      as [[= -> ->]|Hne].
    + by rewrite Ht, !andb_false_r.
    + by rewrite done_before_step.
Qed.

Lemma marked_next_row (ka : nat) (h : Heap) :
  marked matrix h0 nodes h1 (Z.of_nat ka) (Z.of_nat (Z.to_nat width)) h ->
  marked matrix h0 nodes h1 (Z.of_nat (S ka)) 0 h.
Proof.
  intros (Hlen & Hold & Hcells).
  destruct nodes_filled as (_ & _ & Hfilled).
  split; [done|]. split; [done|].
  intros i row j l Hrow Hl. rewrite (Hcells i row j l Hrow Hl).
  destruct (Hfilled i row Hrow) as [Hlenr _].
  apply lookup_lt_Some in Hl.
  replace (Z.of_nat (S ka)) with (Z.of_nat ka + 1) by lia.
  rewrite (done_before_row (Z.of_nat ka) (Z.of_nat (Z.to_nat width)));
    [done | lia].
Qed.

(** The loops that apply the matrix succeed and mark every cell. *)
Lemma mark_nodes_ok :
  exists h2,
    mark_nodes width height matrix nodes h1 = (Ok tt, h2)
    /\ marked matrix h0 nodes h1 (Z.of_nat (Z.to_nat height)) 0 h2.
Proof.
  unfold mark_nodes.
  apply (for_each_inv
           (fun k => marked matrix h0 nodes h1 (Z.of_nat k) 0)).
  - apply marked_start.
  - intros ka h Hka Hinv. simpl.
    destruct (for_each_inv
                (fun k => marked matrix h0 nodes h1 (Z.of_nat ka) (Z.of_nat k))
                (Z.to_nat width) 0
                (fun j =>
                   do cell <- read (fun _ => index2 matrix (Z.of_nat ka) j);
                   if truthy cell then
                     do l <- read (fun _ => node_ref nodes (Z.of_nat ka) j);
                     assign_walkable l (Node.WBool false)
                   else ret tt) h Hinv) as (h' & Hrun & Hinv').
    + intros kb hk Hkb Hk. simpl. by apply mark_step.
    + exists h'. split; [done|]. by apply marked_next_row.
Qed.

End Mark.

(** ** Construction *)

(** [new Grid] once the allocation loops are through. *)
Lemma new_unfold (width height : Z) (om : option Matrix) (h0 : Heap) :
  array_length height -> (height <> 0 -> array_length width) ->
  let nodes := grid_locs (Z.to_nat height) (length h0) (Z.to_nat width) in
  let h1 :=
    h0 ++ grid_nodes (Z.to_nat height) 0 (Z.to_nat width) (fun _ _ => None) in
  filled (fun _ _ => None) width height h0 nodes h1 /\
  Grid.new width height om h0
  = match om with
    | None => (Ok (Grid.mk width height nodes 0), h1)
    | Some m =>
        if negb (Z.of_nat (length m) =? height)
        then (Throw MatrixSizeError, h1)
        else
          match m with
          | [] => (Throw TypeError, h1)
          | row0 :: _ =>
              if negb (Z.of_nat (length row0) =? width)
              then (Throw MatrixSizeError, h1)
              else
                match mark_nodes width height m nodes h1 with
                | (Ok _, h2) => (Ok (Grid.mk width height nodes 0), h2)
                | (Throw e, h2) => (Throw e, h2)
                end
          end
    end.
Proof.
  intros Hh Hw nodes h1.
  assert (forall i j hc, 0 <= i < height -> 0 <= j < width ->
            h0 `prefix_of` hc ->
            @ret (option Node.Walkable) None hc = (Ok None, hc)) as Hreads
    by done.
  pose proof (fill_nodes_eq width height h0 (fun _ _ => ret None)
                (fun _ _ => None) Hreads Hh Hw) as Hfill.
  split.
  - destruct (fill_nodes_ok width height h0 (fun _ _ => ret None)
                (fun _ _ => None) Hreads Hh Hw) as (ns & hf & Heq & Hfilled).
    rewrite Hfill in Heq. by injection Heq as <- <-.
  - unfold Grid.new, _buildNodes, bind.
    rewrite Hfill. fold nodes. fold h1.
    destruct om as [m|]; [|done].
    destruct (negb (Z.of_nat (length m) =? height)); [done|].
    destruct m as [|row0 m']; [done|].
    change (index (row0 :: m') 0) with (Some row0). cbv beta iota.
    destruct (negb (Z.of_nat (length row0) =? width)); [done|].
    by destruct (mark_nodes width height (row0 :: m') nodes h1) as [[[]|e] h2].
Qed.

(** A construction that returns was given array lengths. *)
Lemma new_returns (width height : Z) (om : option Matrix) (h0 h : Heap)
    (g : Grid.t) :
  Grid.new width height om h0 = (Ok g, h) ->
  array_length height /\ (height <> 0 -> array_length width).
Proof.
  unfold Grid.new, _buildNodes, fill_nodes. intros Hnew.
  assert (array_length height) as Hh.
  { destruct (decide (array_length height)) as [|Hbad]; [done|].
    unfold bind in Hnew. by rewrite (new_Array_throw height h0 Hbad) in Hnew. }
  split; [done|]. intros Hne.
  destruct (decide (array_length width)) as [|Hbad]; [done|].
  unfold array_length in Hh.
  destruct (Z.to_nat height) as [|n] eqn:En; [lia|].
  unfold bind in Hnew. rewrite (new_Array_ok height h0) in Hnew by done.
  simpl in Hnew. unfold bind in Hnew.
  by rewrite (new_Array_throw width h0 Hbad) in Hnew.
Qed.

Lemma row_nodes_open (n : nat) (j i : Z) :
  Forall (fun n => Node.walkable n = Node.WBool true)
         (row_nodes n j i (fun _ _ => None)).
Proof.
  revert j. induction n as [|n IH]; intros j; simpl; constructor;
    [done | apply IH].
Qed.

Lemma grid_nodes_open (m : nat) (i : Z) (wn : nat) :
  Forall (fun n => Node.walkable n = Node.WBool true)
         (grid_nodes m i wn (fun _ _ => None)).
Proof.
  revert i. induction m as [|m IH]; intros i; simpl; [constructor|].
  apply Forall_app. split; [apply row_nodes_open | apply IH].
Qed.

Lemma size_fits_cases (width height : Z) (m : Matrix) :
  size_fits width height m
  = (Z.of_nat (length m) =? height)
    && match m with
       | row0 :: _ => Z.of_nat (length row0) =? width
       | [] => true
       end.
Proof. reflexivity. Qed.

Lemma rectangular_size_fits (width height : Z) (m : Matrix) :
  rectangular width height m = true -> size_fits width height m = true.
Proof.
  unfold rectangular, size_fits. rewrite !andb_true_iff.
  intros [Hrows Hcols]. split; [done|].
  destruct m as [|row0 m]; [done|]. simpl in Hcols.
  by apply andb_true_iff in Hcols as [? _].
Qed.

(** The shape of a filled node array makes the grid well-formed, whatever
    the [walkable] attributes of its nodes are. *)
Lemma wf_of_cells (width height it : Z) (nodes : list (list loc)) (h : Heap) :
  array_length height -> (height <> 0 -> array_length width) ->
  length nodes = Z.to_nat height ->
  (forall i row, nodes !! i = Some row ->
     length row = Z.to_nat width /\
     forall j l, row !! j = Some l ->
       exists w, h !! l = Some (Node.mk (Z.of_nat j) (Z.of_nat i) w)) ->
  wf (Grid.mk width height nodes it) h = true.
Proof.
  intros Hh Hw Hlen Hcells. apply wf_spec. simpl.
  split; [by apply sizes_ok_spec|]. split; [done|].
  intros i row Hrow. destruct (Hcells i row Hrow) as [Hl Hc].
  split; [done|]. intros j l Hj. destruct (Hc j l Hj) as [w Hn]. eauto.
Qed.

Lemma wf_of_filled (W : Z -> Z -> option Node.Walkable) (width height it : Z)
    (h0 : Heap) (nodes : list (list loc)) (h1 : Heap) :
  array_length height -> (height <> 0 -> array_length width) ->
  filled W width height h0 nodes h1 ->
  wf (Grid.mk width height nodes it) h1 = true.
Proof.
  intros Hh Hw (_ & Hlen & Hcells). apply wf_of_cells; [done | done | done |].
  intros i row Hrow. destruct (Hcells i row Hrow) as [Hl Hc].
  split; [done|]. intros j l Hj. destruct (Hc j l Hj) as [_ Hn]. eauto.
Qed.

Lemma wf_of_marked (m : Matrix) (width height it a b : Z)
    (h0 : Heap) (nodes : list (list loc)) (h1 h : Heap) :
  array_length height -> (height <> 0 -> array_length width) ->
  filled (fun _ _ => None) width height h0 nodes h1 ->
  marked m h0 nodes h1 a b h ->
  wf (Grid.mk width height nodes it) h = true.
Proof.
  intros Hh Hw (_ & Hlen & Hcells) (_ & _ & Hm).
  apply wf_of_cells; [done | done | done |].
  intros i row Hrow. destruct (Hcells i row Hrow) as [Hl _].
  split; [done|]. intros j l Hj. rewrite (Hm i row j l Hrow Hj). eauto.
Qed.

(** The cell of a position inside a grid of the right shape. *)
Lemma inside_lookup (g : Grid.t) (x y : Z) :
  length (nodes g) = Z.to_nat (height g) ->
  (forall i row, nodes g !! i = Some row -> length row = Z.to_nat (width g)) ->
  isInside g x y = true ->
  exists i j row l, x = Z.of_nat j /\ y = Z.of_nat i /\
                    nodes g !! i = Some row /\ row !! j = Some l.
Proof.
  intros Hlen Hrows [Hx Hy]%isInside_spec.
  destruct (lookup_lt_is_Some_2 (nodes g) (Z.to_nat y)) as [row Hrow]; [lia|].
  destruct (lookup_lt_is_Some_2 row (Z.to_nat x)) as [l Hl];
    [rewrite (Hrows _ _ Hrow); lia|].
  exists (Z.to_nat y), (Z.to_nat x), row, l.
  repeat split; [lia | lia | done | done].
Qed.

Lemma cell_lookup (g : Grid.t) (h : Heap) (i j : nat) (row : list loc)
    (l : loc) :
  nodes g !! i = Some row -> row !! j = Some l ->
  cell g h (Z.of_nat j) (Z.of_nat i) = h !! l.
Proof.
  intros Hrow Hl. unfold cell. by rewrite index_of_nat, Hrow, index_of_nat, Hl.
Qed.

(** A construction from a matrix that returns has filled and marked the
    nodes. *)
Lemma new_matrix_inv (width height : Z) (m : Matrix) (h0 h : Heap)
    (g : Grid.t) :
  Grid.new width height (Some m) h0 = (Ok g, h) ->
  exists nodes h1,
    g = Grid.mk width height nodes 0
    /\ filled (fun _ _ => None) width height h0 nodes h1
    /\ marked m h0 nodes h1 height 0 h.
Proof.
  intros Hnew. destruct (new_returns _ _ _ _ _ _ Hnew) as [Hh Hw].
  destruct (new_unfold width height (Some m) h0 Hh Hw) as [Hfilled Heq].
  cbv zeta in Hfilled, Heq. rewrite Hnew in Heq.
  destruct (negb (Z.of_nat (length m) =? height)) eqn:Hrows; [done|].
  destruct m as [|row0 m']; [done|].
  destruct (negb (Z.of_nat (length row0) =? width)); [done|].
  apply negb_false_iff, Z.eqb_eq in Hrows.
  destruct (mark_nodes_ok width height (row0 :: m') h0 _ _ Hfilled)
    as (h2 & Hmark & Hmarked); [lia|].
  rewrite Hmark in Heq. injection Heq as -> ->.
  eexists _, _. split; [done|]. split; [done|].
  unfold array_length in Hh. by rewrite Z2Nat.id in Hmarked by lia.
Qed.

Lemma new_open_inv (width height : Z) (h0 h : Heap) (g : Grid.t) :
  Grid.new width height None h0 = (Ok g, h) ->
  exists nodes,
    g = Grid.mk width height nodes 0
    /\ filled (fun _ _ => None) width height h0 nodes h.
Proof.
  intros Hnew. destruct (new_returns _ _ _ _ _ _ Hnew) as [Hh Hw].
  destruct (new_unfold width height None h0 Hh Hw) as [Hfilled Heq].
  cbv zeta in Hfilled, Heq. rewrite Hnew in Heq. injection Heq as -> ->.
  eauto.
Qed.

(** After the construction from a matrix, [isWalkableAt] is the negation of
    the truthiness of the matrix value. *)
Lemma new_matrix_walkable (width height : Z) (m : Matrix) (h0 h : Heap)
    (g : Grid.t) (x y : Z) (border : option string) :
  Grid.new width height (Some m) h0 = (Ok g, h) ->
  isInside g x y = true ->
  isWalkableAt g x y border h = Ok (negb (truthy (matrix_at m y x))).
Proof.
  intros Hnew Hin. destruct (new_returns _ _ _ _ _ _ Hnew) as [Hh Hw].
  destruct (new_matrix_inv _ _ _ _ _ _ Hnew)
    as (nodes & h1 & -> & Hfilled & Hmarked).
  rewrite isWalkableAt_wf by (by eapply wf_of_marked).
  unfold walk. rewrite Hin. simpl.
  destruct Hfilled as (_ & Hlen & Hcells).
  destruct (inside_lookup (Grid.mk width height nodes 0) x y Hlen
              (fun i row Hr => proj1 (Hcells i row Hr)) Hin)
    as (i & j & row & l & -> & -> & Hrow & Hl).
  rewrite (cell_lookup _ h i j row l Hrow Hl).
  destruct Hmarked as (_ & _ & Hm). rewrite (Hm i row j l Hrow Hl). simpl.
  apply isInside_spec in Hin as [_ Hy]. simpl in Hy.
  unfold done_before. rewrite (proj2 (Z.ltb_lt (Z.of_nat i) height)) by lia.
  done.
Qed.

(** ** The claims on the construction *)

(** C4, as amended.  For sizes that are array lengths: when the matrix has
    not [height] rows, or its first row has not [width] columns,
    construction throws the size error; the store then holds, after the
    nodes it had, only the nodes just allocated, all of them walkable: no
    node was marked and no grid is returned.  When the number of rows and
    the length of the first row fit, construction returns: the length of
    the other rows is not checked. *)
Theorem matrix_size_is_checked
    (width height : Z) (matrix : Matrix) (h0 : Heap) :
  array_length width -> array_length height ->
  (size_fits width height matrix = false ->
   exists fresh,
     Grid.new width height (Some matrix) h0
     = (Throw MatrixSizeError, h0 ++ fresh)
     /\ Forall (fun n => Node.walkable n = Node.WBool true) fresh)
  /\ (size_fits width height matrix = true -> matrix <> [] ->
      exists g h, Grid.new width height (Some matrix) h0 = (Ok g, h)).
Proof.
  intros Hw Hh.
  destruct (new_unfold width height (Some matrix) h0 Hh (fun _ => Hw))
    as [Hfilled Heq].
  cbv zeta in Hfilled, Heq. rewrite Heq. rewrite size_fits_cases. split.
  - intros Hfits.
    exists (grid_nodes (Z.to_nat height) 0 (Z.to_nat width) (fun _ _ => None)).
    split; [|apply grid_nodes_open].
    destruct (Z.of_nat (length matrix) =? height); [|done].
    destruct matrix as [|row0 m']; [done|]. simpl in Hfits.
    by rewrite Hfits.
  - intros Hfits Hne. apply andb_true_iff in Hfits as [Hrows Hrow0].
    rewrite Hrows. simpl. destruct matrix as [|row0 m']; [done|].
    rewrite Hrow0. simpl. apply Z.eqb_eq in Hrows.
    destruct (mark_nodes_ok width height (row0 :: m') h0 _ _ Hfilled)
      as (h2 & -> & _); [lia|]. eauto.
Qed.

Lemma matrix_size_is_checked_witness :
  (exists fresh,
     Grid.new 2 2 (Some [[MNum 0]; [MNum 0; MNum 1]]) []
     = (Throw MatrixSizeError, [] ++ fresh)
     /\ Forall (fun n => Node.walkable n = Node.WBool true) fresh)
  /\ (exists g h, Grid.new 2 2 (Some ragged) [] = (Ok g, h)).
Proof.
  split.
  - apply (proj1 (matrix_size_is_checked 2 2 [[MNum 0]; [MNum 0; MNum 1]] []
                    ltac:(unfold array_length; lia)
                    ltac:(unfold array_length; lia))).
    vm_compute; reflexivity.
  - apply (proj2 (matrix_size_is_checked 2 2 ragged []
                    ltac:(unfold array_length; lia)
                    ltac:(unfold array_length; lia)));
      [vm_compute; reflexivity | discriminate].
Defined.

(** C4 as stated fails: the second row of [ragged] has three columns for a
    grid of width two, and construction returns a grid, the third value
    being dropped. *)
Lemma ragged_matrix_is_accepted :
  rectangular 2 2 ragged = false
  /\ (Grid.new 2 2 (Some ragged) []).1
     = Ok (Grid.mk 2 2 [[0%nat; 1%nat]; [2%nat; 3%nat]] 0)
  /\ (Grid.new 2 2 (Some ragged) []).1 <> Throw MatrixSizeError.
Proof. by vm_compute. Qed.

(** C5. Construction from a matrix whose number of rows and first row
    fit the sizes returns, and the grid has the width and the height
    given; at every cell [(x, y)] of these sizes [isWalkableAt] is [false]
    when the matrix value of row [y] and column [x] is truthy and [true]
    when it is falsy (zero, [false], [null], or absent).  Construction
    without a matrix returns a grid of the sizes given in which every cell
    is walkable.  For a matrix with a one at row [r] and column [c] and
    zeros elsewhere, the cell [(c, r)] alone is not walkable. *)
Theorem matrix_marks_walkability (width height : Z) (h0 : Heap) :
  (forall matrix,
     array_length width -> array_length height ->
     size_fits width height matrix = true -> matrix <> [] ->
     exists g h, Grid.new width height (Some matrix) h0 = (Ok g, h))
  /\ (forall matrix g h,
        Grid.new width height (Some matrix) h0 = (Ok g, h) ->
        Grid.width g = width /\ Grid.height g = height /\
        forall x y border, 0 <= x < width -> 0 <= y < height ->
          isWalkableAt g x y border h
          = Ok (negb (truthy (matrix_at matrix y x))))
  /\ (array_length width -> array_length height ->
      exists g h, Grid.new width height None h0 = (Ok g, h))
  /\ (forall g h,
        Grid.new width height None h0 = (Ok g, h) ->
        Grid.width g = width /\ Grid.height g = height /\
        forall x y border, 0 <= x < width -> 0 <= y < height ->
          isWalkableAt g x y border h = Ok true)
  /\ (forall matrix r c g h,
        Grid.new width height (Some matrix) h0 = (Ok g, h) ->
        (forall x y, 0 <= x < width -> 0 <= y < height ->
           matrix_at matrix y x
           = Some (MNum (if (x =? c) && (y =? r) then 1 else 0))) ->
        forall x y border, 0 <= x < width -> 0 <= y < height ->
          isWalkableAt g x y border h = Ok (negb ((x =? c) && (y =? r)))).
Proof.
  assert (forall om g h,
            Grid.new width height om h0 = (Ok g, h) ->
            Grid.width g = width /\ Grid.height g = height /\
            forall x y, 0 <= x < width -> 0 <= y < height ->
              isInside g x y = true) as Hsizes.
  { intros om g h Hnew. destruct om as [m|].
    - destruct (new_matrix_inv _ _ _ _ _ _ Hnew) as (nodes & h1 & -> & _).
      repeat split. intros x y Hx Hy. by apply isInside_spec.
    - destruct (new_open_inv _ _ _ _ _ Hnew) as (nodes & -> & _).
      repeat split. intros x y Hx Hy. by apply isInside_spec. }
  split; [|split; [|split; [|split]]].
  - intros matrix Hw Hh Hfits Hne.
    destruct (new_unfold width height (Some matrix) h0 Hh (fun _ => Hw))
      as [Hfilled Heq].
    cbv zeta in Hfilled, Heq. rewrite Heq.
    apply andb_true_iff in Hfits as [Hrows Hrow0].
    rewrite Hrows. simpl. destruct matrix as [|row0 m']; [done|].
    rewrite Hrow0. simpl. apply Z.eqb_eq in Hrows.
    destruct (mark_nodes_ok width height (row0 :: m') h0 _ _ Hfilled)
      as (h2 & -> & _); [lia|]. eauto.
  - intros matrix g h Hnew.
    destruct (Hsizes _ _ _ Hnew) as (Hw & Hh & Hin).
    split; [done|]. split; [done|]. intros x y border Hx Hy.
    apply (new_matrix_walkable width height _ h0); [done|]. by apply Hin.
  - intros Hw Hh.
    destruct (new_unfold width height None h0 Hh (fun _ => Hw)) as [_ Heq].
    cbv zeta in Heq. rewrite Heq. eauto.
  - intros g h Hnew.
    destruct (Hsizes _ _ _ Hnew) as (Hw & Hh & Hinside).
    split; [done|]. split; [done|]. intros x y border Hx Hy.
    pose proof (Hinside x y Hx Hy) as Hin.
    destruct (new_returns _ _ _ _ _ _ Hnew) as [Hlh Hlw].
    destruct (new_open_inv _ _ _ _ _ Hnew) as (nodes & -> & Hfilled).
    rewrite isWalkableAt_wf by (by eapply wf_of_filled).
    unfold walk. rewrite Hin. simpl.
    destruct Hfilled as (_ & Hlen & Hcells).
    destruct (inside_lookup (Grid.mk width height nodes 0) x y Hlen
                (fun i row Hr => proj1 (Hcells i row Hr)) Hin)
      as (i & j & row & l & -> & -> & Hrow & Hl).
    rewrite (cell_lookup _ h i j row l Hrow Hl).
    destruct (Hcells i row Hrow) as [_ Hc].
    destruct (Hc j l Hl) as [_ ->]. done.
  - intros matrix r c g h Hnew Hone x y border Hx Hy.
    destruct (Hsizes _ _ _ Hnew) as (_ & _ & Hin).
    rewrite (new_matrix_walkable width height matrix h0 h g x y border
               Hnew (Hin x y Hx Hy)).
    rewrite (Hone x y Hx Hy). by destruct ((x =? c) && (y =? r)).
Qed.

Lemma matrix_marks_walkability_witness :
  (exists g h, Grid.new 3 3 (Some ring_matrix) [] = (Ok g, h))
  /\ (Grid.width ring3.1 = 3 /\ Grid.height ring3.1 = 3 /\
      forall x y border, 0 <= x < 3 -> 0 <= y < 3 ->
        isWalkableAt ring3.1 x y border ring3.2
        = Ok (negb (truthy (matrix_at ring_matrix y x))))
  /\ (exists g h, Grid.new 4 4 None [] = (Ok g, h))
  /\ (Grid.width open4.1 = 4 /\ Grid.height open4.1 = 4 /\
      forall x y border, 0 <= x < 4 -> 0 <= y < 4 ->
        isWalkableAt open4.1 x y border open4.2 = Ok true)
  /\ (forall x y border, 0 <= x < 3 -> 0 <= y < 3 ->
        isWalkableAt ring3.1 x y border ring3.2
        = Ok (negb ((x =? 1) && (y =? 1)))).
Proof.
  split; [|split; [|split; [|split]]].
  - apply (proj1 (matrix_marks_walkability 3 3 []));
      [unfold array_length; lia | unfold array_length; lia
      | vm_compute; reflexivity | discriminate].
  - apply (proj1 (proj2 (matrix_marks_walkability 3 3 []))
             ring_matrix ring3.1 ring3.2).
    vm_compute; reflexivity.
  - apply (proj1 (proj2 (proj2 (matrix_marks_walkability 4 4 []))));
      unfold array_length; lia.
  - apply (proj1 (proj2 (proj2 (proj2 (matrix_marks_walkability 4 4 []))))
             open4.1 open4.2).
    vm_compute; reflexivity.
  - apply (proj2 (proj2 (proj2 (proj2 (matrix_marks_walkability 3 3 []))))
             ring_matrix 1 1 ring3.1 ring3.2); [vm_compute; reflexivity|].
    intros x y Hx Hy.
    assert (x = 0 \/ x = 1 \/ x = 2) as [-> | [-> | ->]] by lia;
      assert (y = 0 \/ y = 1 \/ y = 2) as [-> | [-> | ->]] by lia; reflexivity.
Defined.

(** ** Cloning *)

Lemma node_ref_Ok (nodes : list (list loc)) (i j : Z) (l : loc) :
  node_ref nodes i j = Ok l <->
  exists row, 0 <= i /\ nodes !! Z.to_nat i = Some row /\
              0 <= j /\ row !! Z.to_nat j = Some l.
Proof.
  unfold node_ref, index2. split.
  - destruct (index nodes i) as [row|] eqn:Hi; [|done]. simpl.
    destruct (index row j) as [l'|] eqn:Hj; [|done]. intros [= ->].
    apply index_Some in Hi as [? ?], Hj as [? ?]. eauto.
  - intros (row & Hi & Hrow & Hj & Hl).
    rewrite (proj2 (index_Some nodes i row)) by done. simpl.
    by rewrite (proj2 (index_Some row j l)).
Qed.

(** The references of a well-formed grid point into the store. *)
Lemma wf_ref (g : Grid.t) (h : Heap) (x y : Z) (l : loc) :
  wf g h = true -> ref_at g x y = Ok l ->
  (l < length h)%nat /\ isInside g x y = true.
Proof.
  intros Hwf (row & Hy & Hrow & Hx & Hl)%node_ref_Ok.
  pose proof Hwf as (_ & Hlen & Hcells)%wf_spec.
  destruct (Hcells _ _ Hrow) as [Hlenr Hc].
  destruct (Hc _ _ Hl) as (n & Hn & _).
  split; [by apply lookup_lt_Some in Hn|].
  apply lookup_lt_Some in Hrow, Hl. apply isInside_spec. lia.
Qed.

(** [isWalkableAt] reads the store at the references of the grid only. *)
Lemma isWalkableAt_ext (g : Grid.t) (h h' : Heap) (x y : Z)
    (border : option string) :
  (forall l, ref_at g x y = Ok l -> h !! l = h' !! l) ->
  isWalkableAt g x y border h = isWalkableAt g x y border h'.
Proof.
  intros Hsame. unfold isWalkableAt.
  destruct (isInside g x y); simpl; [|done].
  unfold ref_at in Hsame.
  destruct (node_ref (nodes g) y x) as [l|e]; simpl; [|done].
  unfold deref. by rewrite (Hsame l eq_refl).
Qed.

(** [setWalkableAt] writes the store at the reference of its cell only, and
    there only the [walkable] attribute. *)
Lemma setWalkableAt_store (g : Grid.t) (h : Heap) (x y : Z)
    (w : Node.Walkable) (l : loc) :
  ref_at g x y <> Ok l ->
  (setWalkableAt g x y w h).2 !! l = h !! l.
Proof.
  intros Hne. unfold setWalkableAt, bind, read. unfold ref_at in Hne.
  destruct (node_ref (nodes g) y x) as [l'|e]; simpl; [|done].
  unfold assign_walkable. destruct (h !! l') as [n|]; simpl; [|done].
  apply list_lookup_insert_ne. congruence.
Qed.

Lemma setWalkableAt_coords (g : Grid.t) (h : Heap) (x y : Z)
    (w : Node.Walkable) (l : loc) (n : Node.t) :
  h !! l = Some n ->
  exists n', (setWalkableAt g x y w h).2 !! l = Some n'
             /\ Node.x n' = Node.x n /\ Node.y n' = Node.y n.
Proof.
  intros Hn. unfold setWalkableAt, bind, read.
  destruct (node_ref (nodes g) y x) as [l'|e]; simpl; [|eauto].
  unfold assign_walkable. destruct (h !! l') as [n0|] eqn:Hn0; simpl; [|eauto].
  destruct (decide (l' = l)) as [->|Hne].
  - rewrite list_lookup_insert_eq by (by apply lookup_lt_Some in Hn).
    assert (n0 = n) as -> by congruence. eauto.
  - rewrite list_lookup_insert_ne by done. eauto.
Qed.

(** Well-formedness survives every change of the store that keeps the nodes
    in place with their coordinates. *)
Lemma wf_store (g : Grid.t) (h h' : Heap) :
  wf g h = true ->
  (forall l n, h !! l = Some n ->
     exists n', h' !! l = Some n'
                /\ Node.x n' = Node.x n /\ Node.y n' = Node.y n) ->
  wf g h' = true.
Proof.
  intros (Hsz & Hlen & Hcells)%wf_spec Hkeep. apply wf_spec.
  split; [done|]. split; [done|].
  intros i row Hrow. destruct (Hcells i row Hrow) as [Hl Hc].
  split; [done|]. intros j l Hj.
  destruct (Hc j l Hj) as (n & Hn & Hx & Hy).
  destruct (Hkeep l n Hn) as (n' & Hn' & Hx' & Hy').
  exists n'. repeat split; congruence.
Qed.

Lemma wf_prefix (g : Grid.t) (h h' : Heap) :
  wf g h = true -> h `prefix_of` h' -> wf g h' = true.
Proof.
  intros Hwf [ext ->]. apply (wf_store g h); [done|].
  intros l n Hn. exists n. by rewrite (lookup_app_l_Some _ _ _ _ Hn).
Qed.

(** [clone] returns on a well-formed grid: a grid of the same sizes at
    generation zero, whose nodes were allocated by the call and carry the
    attributes of the source. *)
Lemma clone_ok (g : Grid.t) (h : Heap) :
  wf g h = true ->
  exists nodes' h1 h',
    clone g h = (Ok (Grid.mk (width g) (height g) nodes' 0), h')
    /\ h `prefix_of` h1
    /\ filled (attribute g h) (width g) (height g) h1 nodes' h'.
Proof.
  intros Hwf. pose proof Hwf as ([Hh Hw]%sizes_ok_spec & _)%wf_spec.
  destruct (new_unfold (width g) (height g) None h Hh Hw) as [Hfilled1 Hnew].
  cbv zeta in Hfilled1, Hnew.
  set (h1 := h ++ grid_nodes (Z.to_nat (height g)) 0 (Z.to_nat (width g))
                    (fun _ _ => None)) in *.
  destruct (fill_nodes_ok (width g) (height g) h1
              (fun j i =>
                 do l <- read (fun _ => node_ref (nodes g) i j);
                 do n <- read (deref l);
                 ret (Some (Node.walkable n)))
              (attribute g h)) as (nodes' & h' & Hfill & Hfilled);
    [| done | done |].
  - intros i j hc Hi Hj [ext2 ->].
    assert (isInside g j i = true) as Hin by (apply isInside_spec; lia).
    destruct (wf_inside_cell g h j i Hwf Hin) as (l & n & Hl & Hn & Hc & _).
    unfold bind, read, attribute. rewrite Hl, Hc. unfold deref.
    subst h1. rewrite <- app_assoc.
    by rewrite (lookup_app_l_Some _ _ _ _ Hn).
  - exists nodes', h1, h'. split; [|split; [by apply prefix_app_r | done]].
    unfold clone. rewrite (bind_ok _ _ _ _ _ Hnew).
    by rewrite (bind_ok _ _ _ _ _ Hfill).
Qed.

(** C7. On a well-formed grid [clone] returns a grid of the same width and
    height, at generation zero whatever the generation of the source, and
    well-formed.  Every node of the clone was allocated by the call: the
    references of the source lie in the store of before, those of the clone
    beyond it, so that no node is shared; the node of a cell of the clone
    carries the coordinates of the cell and the [walkable] attribute stored
    in the node of the source.  [setWalkableAt] on the clone changes no
    answer of [isWalkableAt] on the source, and conversely. *)
Theorem clone_is_independent (g : Grid.t) (h : Heap) :
  wf g h = true ->
  exists g' h',
    clone g h = (Ok g', h') /\
    width g' = width g /\ height g' = height g /\ iteration g' = 0 /\
    h `prefix_of` h' /\ wf g' h' = true /\
    (forall x y l, ref_at g x y = Ok l -> (l < length h)%nat) /\
    (forall x y l', ref_at g' x y = Ok l' -> (length h <= l')%nat) /\
    (forall x y, isInside g x y = true ->
       exists n l', cell g h x y = Some n /\ ref_at g' x y = Ok l' /\
                    h' !! l' = Some (Node.mk x y (Node.walkable n))) /\
    (forall x y w x' y' border,
       isWalkableAt g x' y' border (setWalkableAt g' x y w h').2
       = isWalkableAt g x' y' border h') /\
    (forall x y w x' y' border,
       isWalkableAt g' x' y' border (setWalkableAt g x y w h').2
       = isWalkableAt g' x' y' border h').
Proof.
  intros Hwf. pose proof Hwf as ([Hh Hw]%sizes_ok_spec & _)%wf_spec.
  destruct (clone_ok g h Hwf) as (nodes' & h1 & h' & Hclone & Hpre1 & Hfilled).
  pose proof Hfilled as (Hpre2 & Hlen' & Hcells').
  exists (Grid.mk (width g) (height g) nodes' 0), h'.
  assert (forall x y l, ref_at g x y = Ok l -> (l < length h)%nat) as Hold.
  { intros x y l Hl. by destruct (wf_ref g h x y l Hwf Hl). }
  assert (forall x y l',
            ref_at (Grid.mk (width g) (height g) nodes' 0) x y = Ok l' ->
            (length h <= l')%nat) as Hnew.
  { intros x y l' (row & _ & Hrow & _ & Hl)%node_ref_Ok. simpl in Hrow.
    destruct (Hcells' _ _ Hrow) as [_ Hc]. destruct (Hc _ _ Hl) as [Hge _].
    apply prefix_length in Hpre1. lia. }
  repeat (split; [done|]).
  split; [by etrans|]. split; [by eapply wf_of_filled|].
  split; [done|]. split; [done|]. split; [|split].
  - intros x y Hin.
    destruct (wf_inside_cell g h x y Hwf Hin) as (l & n & _ & _ & Hc & _).
    destruct (inside_lookup (Grid.mk (width g) (height g) nodes' 0) x y Hlen'
                (fun i row Hr => proj1 (Hcells' i row Hr)) Hin)
      as (i & j & row & l' & -> & -> & Hrow & Hl').
    exists n, l'. split; [done|].
    split; [by apply (node_ref_lookup nodes' i j row)|].
    destruct (Hcells' i row Hrow) as [_ Hcr].
    destruct (Hcr j l' Hl') as [_ ->]. unfold attribute. by rewrite Hc.
  - intros x y w x' y' border. apply isWalkableAt_ext.
    intros l Hl. apply setWalkableAt_store.
    intros Hl'. apply Hold in Hl. apply Hnew in Hl'. lia.
  - intros x y w x' y' border. apply isWalkableAt_ext.
    intros l' Hl'. apply setWalkableAt_store.
    intros Hl. apply Hold in Hl. apply Hnew in Hl'. lia.
Qed.

Lemma clone_is_independent_witness :
  exists g' h',
    clone tagged4.1 tagged4.2 = (Ok g', h') /\
    width g' = 4 /\ height g' = 4 /\ iteration g' = 0 /\
    tagged4.2 `prefix_of` h' /\ wf g' h' = true /\
    (forall x y l, ref_at tagged4.1 x y = Ok l -> (l < 16)%nat) /\
    (forall x y l', ref_at g' x y = Ok l' -> (16 <= l')%nat) /\
    (forall x y, isInside tagged4.1 x y = true ->
       exists n l', cell tagged4.1 tagged4.2 x y = Some n /\
                    ref_at g' x y = Ok l' /\
                    h' !! l' = Some (Node.mk x y (Node.walkable n))) /\
    (forall x y w x' y' border,
       isWalkableAt tagged4.1 x' y' border (setWalkableAt g' x y w h').2
       = isWalkableAt tagged4.1 x' y' border h') /\
    (forall x y w x' y' border,
       isWalkableAt g' x' y' border (setWalkableAt tagged4.1 x y w h').2
       = isWalkableAt g' x' y' border h').
Proof.
  apply (clone_is_independent tagged4.1 tagged4.2). vm_compute; reflexivity.
Defined.

(** ** The generation counter *)

Lemma to_double_exact (m : Z) :
  - 2 ^ 53 <= m <= 2 ^ 53 -> to_double m = m.
Proof.
  intros Hm. unfold to_double.
  by rewrite (proj2 (Z.leb_le (Z.abs m) (2 ^ 53))) by lia.
Qed.

Lemma to_double_stops : to_double (2 ^ 53 + 1) = 2 ^ 53.
Proof. by vm_compute. Qed.

(** The counter after [++], while it is in the range it can reach. *)
Lemma increment_counter (n : Z) :
  0 <= n <= 2 ^ 53 -> to_double (n + 1) = Z.min (n + 1) (2 ^ 53).
Proof.
  intros Hn. destruct (decide (n = 2 ^ 53)) as [->|Hne].
  - rewrite to_double_stops. lia.
  - rewrite to_double_exact by lia. lia.
Qed.

Lemma call_frame (c : Call) (g : Grid.t) (h : Heap) :
  width (call c g h).1.1 = width g /\
  height (call c g h).1.1 = height g /\
  nodes (call c g h).1.1 = nodes g /\
  iteration (call c g h).1.1
  = if is_increment c then to_double (iteration g + 1) else iteration g.
Proof.
  destruct c; simpl; try done.
  - by destruct (setWalkableAt g x y walkable h).
  - by destruct (clone g h).
Qed.

Lemma run_cons (c : Call) (cs : list Call) (g : Grid.t) (h : Heap) :
  run (c :: cs) g h = run cs (call c g h).1.1 (call c g h).1.2.
Proof. simpl. by destruct (call c g h) as [[g' h'] r]. Qed.

Lemma increments_cons (c : Call) (cs : list Call) :
  increments (c :: cs) = (if is_increment c then 1 else 0) + increments cs.
Proof.
  unfold increments. rewrite filter_cons.
  destruct (is_increment c); case_decide; try done; simpl length; lia.
Qed.

Lemma increments_nonneg (cs : list Call) : 0 <= increments cs.
Proof. unfold increments. lia. Qed.

Lemma increments_snoc (cs : list Call) (c : Call) :
  increments (cs ++ [c]) = increments cs + (if is_increment c then 1 else 0).
Proof.
  induction cs as [|c' cs IH].
  - simpl. rewrite increments_cons. unfold increments. simpl. lia.
  - change ((c' :: cs) ++ [c]) with (c' :: (cs ++ [c])).
    rewrite !increments_cons, IH. lia.
Qed.

(** The counter over a sequence of calls, from a value it can have. *)
Lemma run_iteration (cs : list Call) (g : Grid.t) (h : Heap) :
  0 <= iteration g <= 2 ^ 53 ->
  iteration (run cs g h).1 = Z.min (iteration g + increments cs) (2 ^ 53).
Proof.
  revert g h. induction cs as [|c cs IH]; intros g h Hg.
  - simpl. unfold increments. simpl. lia.
  - destruct (call_frame c g h) as (_ & _ & _ & Hc).
    pose proof (increments_nonneg cs) as Hcs.
    rewrite run_cons, increments_cons.
    destruct (is_increment c).
    + rewrite increment_counter in Hc by done. rewrite IH; rewrite Hc; lia.
    + rewrite IH; rewrite Hc; lia.
Qed.

(** C8, as amended.  The generation of a grid is zero when [new Grid]
    returns.  [increment()] leaves the width, the height, the node array
    and the store as they were and adds exactly one to the generation as
    long as it is below 2^53, where the counter, a double, stays.  Every
    other call gives back its receiver as it was, and the clone [clone]
    returns starts at zero.  So over any sequence of calls the generation
    is the one at the start plus the number of [increment()], capped at
    2^53, and it never goes down. *)
Theorem iteration_only_grows :
  (forall width height om h0 g h,
     Grid.new width height om h0 = (Ok g, h) -> iteration g = 0)
  /\ (forall g h,
        call CallIncrement g h = (increment g, h, Ok VUndefined) /\
        width (increment g) = width g /\ height (increment g) = height g /\
        nodes (increment g) = nodes g /\
        (- 2 ^ 53 <= iteration g < 2 ^ 53 ->
         iteration (increment g) = iteration g + 1) /\
        (iteration g = 2 ^ 53 -> iteration (increment g) = 2 ^ 53))
  /\ (forall c g h,
        c <> CallIncrement -> (call c g h).1.1 = g)
  /\ (forall g h,
        wf g h = true ->
        exists g' h', call CallClone g h = (g, h', Ok (VGrid g'))
                      /\ iteration g' = 0)
  /\ (forall cs g h,
        0 <= iteration g <= 2 ^ 53 ->
        iteration (run cs g h).1
        = Z.min (iteration g + increments cs) (2 ^ 53) /\
        iteration g <= iteration (run cs g h).1)
  /\ (forall width height om h0 g h cs c,
        Grid.new width height om h0 = (Ok g, h) ->
        iteration (run cs g h).1 = Z.min (increments cs) (2 ^ 53) /\
        iteration (run cs g h).1 <= iteration (run (cs ++ [c]) g h).1).
Proof.
  assert (forall width height om h0 g h,
            Grid.new width height om h0 = (Ok g, h) -> iteration g = 0)
    as Hzero.
  { intros width height om h0 g h Hnew.
    unfold Grid.new, bind in Hnew.
    destruct (_buildNodes width height om h0) as [[ns|e] h']; [|done].
    unfold ret in Hnew. by injection Hnew as <- _. }
  split; [done|]. split; [|split; [|split; [|split]]].
  - intros g h. repeat (split; [done|]). split.
    + intros Hg. simpl. apply to_double_exact. lia.
    + intros Hg. simpl. rewrite Hg. apply to_double_stops.
  - intros c g h Hc. destruct c; simpl; try done.
    + by destruct (setWalkableAt g x y walkable h).
    + by destruct (clone g h).
  - intros g h Hwf.
    destruct (clone_ok g h Hwf) as (nodes' & h1 & h' & Hclone & _).
    eexists _, h'. simpl. rewrite Hclone. simpl. done.
  - intros cs g h Hg. rewrite run_iteration by done.
    pose proof (increments_nonneg cs). split; [done | lia].
  - intros width height om h0 g h cs c Hnew.
    pose proof (Hzero _ _ _ _ _ _ Hnew) as H0.
    rewrite !run_iteration by lia. rewrite H0, increments_snoc.
    split; [done|]. destruct (is_increment c); lia.
Qed.

Lemma iteration_only_grows_witness :
  iteration open4.1 = 0
  /\ (iteration (run [CallIncrement; CallClone;
                      CallSetWalkableAt 0 0 (Node.WBool false);
                      CallIncrement; CallIsInside 9 9] open4.1 open4.2).1
      = Z.min (increments [CallIncrement; CallClone;
                           CallSetWalkableAt 0 0 (Node.WBool false);
                           CallIncrement; CallIsInside 9 9]) (2 ^ 53)
      /\ iteration (run [CallIncrement; CallClone;
                         CallSetWalkableAt 0 0 (Node.WBool false);
                         CallIncrement; CallIsInside 9 9] open4.1 open4.2).1
         <= iteration (run ([CallIncrement; CallClone;
                             CallSetWalkableAt 0 0 (Node.WBool false);
                             CallIncrement; CallIsInside 9 9]
                            ++ [CallIncrement]) open4.1 open4.2).1)
  /\ iteration (increment worn4) = 2 ^ 53.
Proof.
  split; [|split].
  - apply (proj1 iteration_only_grows 4 4 None [] open4.1 open4.2).
    vm_compute; reflexivity.
  - apply (proj2 (proj2 (proj2 (proj2 (proj2 iteration_only_grows))))
             4 4 None [] open4.1 open4.2).
    vm_compute; reflexivity.
  - apply (proj2 (proj2 (proj2 (proj2 (proj2
             (proj1 (proj2 iteration_only_grows) worn4 open4.2)))))).
    vm_compute; reflexivity.
Defined.

(** C8 as stated fails: on a grid whose generation is 2^53, the value
    2^53 calls of [increment()] lead to, [increment()] leaves the
    generation where it is. *)
Lemma increment_stops_at_2_53 :
  wf worn4 open4.2 = true
  /\ iteration (increment worn4) = iteration worn4
  /\ iteration (increment worn4) <> iteration worn4 + 1.
Proof.
  split; [by vm_compute|]. split; [by vm_compute|].
  vm_compute. discriminate.
Qed.

(** ** Well-formedness is the invariant of the grids in use *)

(** Every grid [new Grid] returns is well-formed. *)
Lemma new_wf (width height : Z) (om : option Matrix) (h0 h : Heap)
    (g : Grid.t) :
  Grid.new width height om h0 = (Ok g, h) -> wf g h = true.
Proof.
  intros Hnew. destruct (new_returns _ _ _ _ _ _ Hnew) as [Hh Hw].
  destruct om as [m|].
  - destruct (new_matrix_inv _ _ _ _ _ _ Hnew)
      as (nodes & h1 & -> & Hfilled & Hmarked).
    by eapply wf_of_marked.
  - destruct (new_open_inv _ _ _ _ _ Hnew) as (nodes & -> & Hfilled).
    by eapply wf_of_filled.
Qed.

(** Every call keeps its receiver well-formed. *)
Lemma call_wf (c : Call) (g : Grid.t) (h : Heap) :
  wf g h = true -> wf (call c g h).1.1 (call c g h).1.2 = true.
Proof.
  intros Hwf. destruct c; simpl; try done.
  - pose proof (setWalkableAt_coords g h x y walkable) as Hkeep.
    destruct (setWalkableAt g x y walkable h) as [r h'] eqn:Hset. simpl in *.
    by apply (wf_store g h).
  - destruct (clone_ok g h Hwf) as (nodes' & h1 & h' & -> & Hpre1 & Hfilled).
    simpl. destruct Hfilled as (Hpre2 & _).
    apply (wf_prefix g h); [done | by etrans].
Qed.

Lemma run_wf (cs : list Call) (g : Grid.t) (h : Heap) :
  wf g h = true -> wf (run cs g h).1 (run cs g h).2 = true.
Proof.
  revert g h. induction cs as [|c cs IH]; intros g h Hwf; [done|].
  rewrite run_cons. by apply IH, call_wf.
Qed.

(** ** Further properties: reading and writing single cells *)

Lemma node_ref_cases (nodes : list (list loc)) (i j : Z) :
  (exists l, node_ref nodes i j = Ok l) \/ node_ref nodes i j = Throw TypeError.
Proof.
  unfold node_ref, index2. destruct (index nodes i) as [row|]; simpl; [|by right].
  destruct (index row j) as [l|]; [left; eauto | by right].
Qed.

(** Outside the bounds a well-formed grid has no reference. *)
Lemma wf_outside (g : Grid.t) (h : Heap) (x y : Z) :
  wf g h = true -> isInside g x y = false ->
  node_ref (nodes g) y x = Throw TypeError.
Proof.
  intros Hwf Hout.
  destruct (node_ref_cases (nodes g) y x) as [[l Hl]|]; [|done].
  destruct (wf_ref g h x y l Hwf Hl) as [_ Hin]. congruence.
Qed.

(** Two positions of a well-formed grid that share a node are the same. *)
Lemma wf_ref_inj (g : Grid.t) (h : Heap) (x y x' y' : Z) (l : loc) :
  wf g h = true -> ref_at g x y = Ok l -> ref_at g x' y' = Ok l ->
  x = x' /\ y = y'.
Proof.
  intros Hwf Hl Hl'.
  destruct (wf_ref g h x y l Hwf Hl) as [_ Hin].
  destruct (wf_ref g h x' y' l Hwf Hl') as [_ Hin'].
  destruct (wf_inside_cell g h x y Hwf Hin) as (l1 & n & Hl1 & Hn & _ & Hx & Hy).
  destruct (wf_inside_cell g h x' y' Hwf Hin')
    as (l2 & n' & Hl2 & Hn' & _ & Hx' & Hy').
  unfold ref_at in Hl, Hl'.
  assert (l1 = l) as -> by congruence. assert (l2 = l) as -> by congruence.
  assert (n' = n) as -> by congruence. split; congruence.
Qed.

(** X1. [getNodeAt] on a well-formed grid: inside the bounds it returns the
    view of the cell's node, with the coordinates of the cell, the stored
    [walkable] attribute and the current generation of the grid; outside
    the bounds it throws a [TypeError], in rows and in columns alike. *)
Theorem getNodeAt_inside_or_throws (g : Grid.t) (h : Heap) (x y : Z) :
  wf g h = true ->
  (isInside g x y = true ->
   exists n, cell g h x y = Some n /\
             getNodeAt g x y h
             = Ok (Node.mkView x y (Node.walkable n) (iteration g)))
  /\ (isInside g x y = false -> getNodeAt g x y h = Throw TypeError).
Proof.
  intros Hwf. split.
  - intros Hin.
    destruct (wf_inside_cell g h x y Hwf Hin) as (l & n & Hl & Hn & Hc & Hx & Hy).
    exists n. split; [done|]. unfold getNodeAt. rewrite Hl. simpl.
    unfold deref. rewrite Hn. simpl. unfold Node.get. by rewrite Hx, Hy.
  - intros Hout. unfold getNodeAt. by rewrite (wf_outside g h x y Hwf Hout).
Qed.

Lemma getNodeAt_inside_or_throws_witness :
  (exists n, cell tagged4.1 tagged4.2 1 1 = Some n /\
             getNodeAt tagged4.1 1 1 tagged4.2
             = Ok (Node.mkView 1 1 (Node.walkable n) (iteration tagged4.1)))
  /\ getNodeAt tagged4.1 4 0 tagged4.2 = Throw TypeError
  /\ getNodeAt tagged4.1 0 (-1) tagged4.2 = Throw TypeError.
Proof.
  split; [|split].
  - apply (proj1 (getNodeAt_inside_or_throws tagged4.1 tagged4.2 1 1
                    ltac:(vm_compute; reflexivity))).
    vm_compute; reflexivity.
  - apply (proj2 (getNodeAt_inside_or_throws tagged4.1 tagged4.2 4 0
                    ltac:(vm_compute; reflexivity))).
    vm_compute; reflexivity.
  - apply (proj2 (getNodeAt_inside_or_throws tagged4.1 tagged4.2 0 (-1)
                    ltac:(vm_compute; reflexivity))).
    vm_compute; reflexivity.
Defined.

(** X2. [setWalkableAt] on a cell inside a well-formed grid returns and
    replaces no node: the grid stays well-formed in a store of the same
    size; afterwards [isWalkableAt] at that cell answers as the new
    attribute says, for every border, and answers at every other position
    as before. *)
Theorem setWalkableAt_then_isWalkableAt
    (g : Grid.t) (h : Heap) (x y : Z) (w : Node.Walkable) :
  wf g h = true -> isInside g x y = true ->
  exists h',
    setWalkableAt g x y w h = (Ok tt, h') /\
    wf g h' = true /\ length h' = length h /\
    (forall border, isWalkableAt g x y border h' = Ok (answers w border)) /\
    (forall x' y' border, (x', y') <> (x, y) ->
       isWalkableAt g x' y' border h' = isWalkableAt g x' y' border h).
Proof.
  intros Hwf Hin.
  destruct (wf_inside_cell g h x y Hwf Hin) as (l & n & Hl & Hn & Hc & Hx & Hy).
  assert (setWalkableAt g x y w h
          = (Ok tt, <[l := Node.set_walkable w n]> h)) as Hset.
  { unfold setWalkableAt, bind, read, assign_walkable. rewrite Hl. simpl.
    by rewrite Hn. }
  assert (wf g (<[l := Node.set_walkable w n]> h) = true) as Hwf'.
  { pose proof (setWalkableAt_coords g h x y w) as Hkeep.
    rewrite Hset in Hkeep. by apply (wf_store g h). }
  exists (<[l := Node.set_walkable w n]> h).
  split; [done|]. split; [done|]. split; [by rewrite length_insert|]. split.
  - intros border. rewrite isWalkableAt_wf by done. unfold walk.
    rewrite Hin. simpl. unfold cell.
    apply node_ref_Ok in Hl as (row & Hy0 & Hrow & Hx0 & Hlr).
    rewrite (proj2 (index_Some (nodes g) y row)) by done.
    rewrite (proj2 (index_Some row x l)) by done.
    by rewrite list_lookup_insert_eq by (by apply lookup_lt_Some in Hn).
  - intros x' y' border Hne. symmetry. apply isWalkableAt_ext.
    intros l' Hl'. symmetry. apply list_lookup_insert_ne. intros <-.
    destruct (wf_ref_inj g h x y x' y' l Hwf Hl Hl') as [-> ->]. done.
Qed.

Lemma setWalkableAt_then_isWalkableAt_witness :
  exists h',
    setWalkableAt open4.1 2 1 (Node.WTag "left") open4.2 = (Ok tt, h') /\
    wf open4.1 h' = true /\ length h' = length open4.2 /\
    (forall border,
       isWalkableAt open4.1 2 1 border h'
       = Ok (answers (Node.WTag "left") border)) /\
    (forall x' y' border, (x', y') <> (2, 1) ->
       isWalkableAt open4.1 x' y' border h'
       = isWalkableAt open4.1 x' y' border open4.2).
Proof.
  apply (setWalkableAt_then_isWalkableAt open4.1 open4.2 2 1
           (Node.WTag "left")); vm_compute; reflexivity.
Defined.

(** X3. [setWalkableAt] outside the bounds of a well-formed grid throws a
    [TypeError] and leaves the store as it was: no array grows and no node
    is written. *)
Theorem setWalkableAt_outside_throws
    (g : Grid.t) (h : Heap) (x y : Z) (w : Node.Walkable) :
  wf g h = true -> isInside g x y = false ->
  setWalkableAt g x y w h = (Throw TypeError, h).
Proof.
  intros Hwf Hout. unfold setWalkableAt, bind, read.
  by rewrite (wf_outside g h x y Hwf Hout).
Qed.

Lemma setWalkableAt_outside_throws_witness :
  setWalkableAt open4.1 (-1) 2 (Node.WBool false) open4.2
  = (Throw TypeError, open4.2).
Proof.
  apply (setWalkableAt_outside_throws open4.1 open4.2 (-1) 2
           (Node.WBool false)); vm_compute; reflexivity.
Defined.

(** ** Further properties of the neighbour enumeration *)

Lemma neighbors_split (g : Grid.t) (h : Heap) (node : Node.view) (dcc : bool) :
  Spec.neighbors g h node true dcc
  = Spec.neighbors g h node false dcc
    ++ concat (map (Spec.entry g h dcc (coords node))
                 [Spec.up_left; Spec.up_right;
                  Spec.down_right; Spec.down_left]).
Proof.
  unfold Spec.neighbors, Spec.order. simpl. rewrite !app_nil_r.
  by rewrite <- !app_assoc.
Qed.

Lemma neighbors_orthogonal_policy (g : Grid.t) (h : Heap) (node : Node.view)
    (dcc dcc' : bool) :
  Spec.neighbors g h node false dcc = Spec.neighbors g h node false dcc'.
Proof. reflexivity. Qed.

Lemma entries_length (g : Grid.t) (h : Heap) (dcc : bool) (p : Z * Z)
    (ds : list Spec.Dir) :
  wf g h = true ->
  (length (concat (map (Spec.entry g h dcc p) ds)) <= length ds)%nat.
Proof.
  intros Hwf. induction ds as [|d ds IH]; simpl; [done|].
  rewrite length_app.
  destruct (entry_cases g h dcc p d Hwf) as [[_ ->] | (_ & v & -> & _)];
    simpl; lia.
Qed.

Lemma around_NoDup (x y : Z) : NoDup (around x y).
Proof.
  unfold around.
  repeat (apply NoDup_cons; split;
          [rewrite ?elem_of_cons, elem_of_nil;
           intros H; repeat destruct H as [H|H]; try done;
           injection H; lia|]).
  apply NoDup_nil_2.
Qed.

(** X4. The neighbours without diagonals are the first part of the
    neighbours with diagonals, and do not depend on the corner policy; at
    most four orthogonal and four diagonal neighbours are returned, and no
    position is returned twice. *)
Theorem getNeighbors_orthogonal_prefix
    (g : Grid.t) (h : Heap) (node : Node.view) (dcc dcc' : bool) :
  wf g h = true ->
  exists orth diag,
    getNeighbors g node false dcc' h = Ok orth /\
    getNeighbors g node true dcc h = Ok (orth ++ diag) /\
    (length orth <= 4)%nat /\ (length diag <= 4)%nat /\
    NoDup (map coords (orth ++ diag)).
Proof.
  intros Hwf.
  exists (Spec.neighbors g h node false dcc),
    (concat (map (Spec.entry g h dcc (coords node))
               [Spec.up_left; Spec.up_right; Spec.down_right; Spec.down_left])).
  split; [|split; [|split; [|split]]].
  - rewrite getNeighbors_refines by done.
    by rewrite (neighbors_orthogonal_policy g h node dcc' dcc).
  - rewrite getNeighbors_refines by done. by rewrite neighbors_split.
  - apply (entries_length g h dcc (coords node)
             [Spec.up; Spec.right; Spec.down; Spec.left] Hwf).
  - by apply (entries_length g h dcc (coords node)
                [Spec.up_left; Spec.up_right; Spec.down_right; Spec.down_left]).
  - rewrite <- neighbors_split.
    apply (sublist_NoDup _ (around (Node.vx node) (Node.vy node)));
      [apply around_NoDup | exact (neighbors_sublist g h node true dcc Hwf)].
Qed.

Lemma getNeighbors_orthogonal_prefix_witness :
  exists orth diag,
    getNeighbors tagged4.1 (open_view 1 1) false false tagged4.2 = Ok orth /\
    getNeighbors tagged4.1 (open_view 1 1) true true tagged4.2
    = Ok (orth ++ diag) /\
    (length orth <= 4)%nat /\ (length diag <= 4)%nat /\
    NoDup (map coords (orth ++ diag)).
Proof.
  apply (getNeighbors_orthogonal_prefix
           tagged4.1 tagged4.2 (open_view 1 1) true false).
  vm_compute; reflexivity.
Defined.

Lemma walk_outside (g : Grid.t) (h : Heap) (x y : Z) (b : option string) :
  isInside g x y = false -> walk g h x y b = false.
Proof. unfold walk. by intros ->. Qed.

(** X5. For a node that lies outside the grid [getNeighbors] returns the
    empty sequence, with and without diagonals: every move is refused by
    the check of the origin cell, also the moves that would enter the
    grid. *)
Theorem getNeighbors_outside_is_empty
    (g : Grid.t) (h : Heap) (node : Node.view) (ad dcc : bool) :
  wf g h = true ->
  isInside g (Node.vx node) (Node.vy node) = false ->
  getNeighbors g node ad dcc h = Ok [].
Proof.
  intros Hwf Hout. rewrite getNeighbors_refines by done. f_equal.
  assert (forall s, Spec.step_ok g h (coords node) s = false) as Hs.
  { intros s. unfold Spec.step_ok. simpl.
    rewrite (walk_outside g h _ _ (Spec.tag s) Hout). apply andb_false_r. }
  unfold Spec.neighbors, Spec.order, Spec.entry, Spec.included,
    Spec.eligible, Spec.up, Spec.right, Spec.down, Spec.left,
    Spec.up_left, Spec.up_right, Spec.down_right, Spec.down_left.
  destruct ad; simpl; rewrite !Hs; by destruct dcc.
Qed.

Lemma getNeighbors_outside_is_empty_witness :
  getNeighbors open4.1 (open_view (-1) 0) true false open4.2 = Ok [].
Proof.
  apply (getNeighbors_outside_is_empty
           open4.1 open4.2 (open_view (-1) 0) true false);
    vm_compute; reflexivity.
Defined.

Lemma entry_policy_sublist (g : Grid.t) (h : Heap) (p : Z * Z) (d : Spec.Dir) :
  Spec.entry g h true p d `sublist_of` Spec.entry g h false p d.
Proof.
  unfold Spec.entry. destruct d as [s|a b]; simpl; [done|].
  unfold Spec.eligible.
  destruct (Spec.step_ok g h p a), (Spec.step_ok g h p b); simpl;
    try done; apply sublist_nil_l.
Qed.

(** X6. Forbidding to cross corners only removes neighbours: the result
    with [dontCrossCorners] is a subsequence of the result without it. *)
Theorem getNeighbors_policy_sublist
    (g : Grid.t) (h : Heap) (node : Node.view) (ad : bool) :
  wf g h = true ->
  exists strict loose,
    getNeighbors g node ad true h = Ok strict /\
    getNeighbors g node ad false h = Ok loose /\
    strict `sublist_of` loose.
Proof.
  intros Hwf.
  exists (Spec.neighbors g h node ad true), (Spec.neighbors g h node ad false).
  split; [by apply getNeighbors_refines|].
  split; [by apply getNeighbors_refines|].
  unfold Spec.neighbors.
  induction (Spec.order ad) as [|d ds IH]; simpl; [done|].
  apply sublist_app; [apply entry_policy_sublist | done].
Qed.

Lemma getNeighbors_policy_sublist_witness :
  exists strict loose,
    getNeighbors tagged4.1 (open_view 1 2) true true tagged4.2 = Ok strict /\
    getNeighbors tagged4.1 (open_view 1 2) true false tagged4.2 = Ok loose /\
    strict `sublist_of` loose.
Proof.
  apply (getNeighbors_policy_sublist tagged4.1 tagged4.2 (open_view 1 2) true).
  vm_compute; reflexivity.
Defined.

Lemma towards_opposite (s : Spec.Side) (p : Z * Z) :
  Spec.towards (Spec.opposite s) (Spec.towards s p) = p.
Proof. destruct p, s; simpl; f_equal; lia. Qed.

Lemma opposite_involutive (s : Spec.Side) :
  Spec.opposite (Spec.opposite s) = s.
Proof. by destruct s. Qed.

Lemma step_ok_back (g : Grid.t) (h : Heap) (p : Z * Z) (s : Spec.Side) :
  Spec.step_ok g h (Spec.towards s p) (Spec.opposite s) = Spec.step_ok g h p s.
Proof.
  unfold Spec.step_ok.
  rewrite towards_opposite, opposite_involutive. apply andb_comm.
Qed.

(** X7. Orthogonal adjacency is symmetric, border tags included: the cell
    on side [s] of [a] is among the neighbours of [a] iff [a] is among the
    neighbours of that cell, whatever the flags of the two calls. *)
Theorem getNeighbors_orthogonal_symmetric
    (g : Grid.t) (h : Heap) (a b : Node.view) (s : Spec.Side)
    (ad dcc ad' dcc' : bool) :
  wf g h = true -> coords b = Spec.towards s (coords a) ->
  exists na nb,
    getNeighbors g a ad dcc h = Ok na /\
    getNeighbors g b ad' dcc' h = Ok nb /\
    (has na (coords b) <-> has nb (coords a)).
Proof.
  intros Hwf Hb.
  exists (Spec.neighbors g h a ad dcc), (Spec.neighbors g h b ad' dcc').
  split; [by apply getNeighbors_refines|].
  split; [by apply getNeighbors_refines|].
  pose proof (has_straight g h b ad' dcc' (Spec.opposite s) Hwf) as Hback.
  rewrite Hb, towards_opposite, step_ok_back in Hback.
  rewrite Hb, Hback. by apply has_straight.
Qed.

Lemma getNeighbors_orthogonal_symmetric_witness :
  exists na nb,
    getNeighbors tagged4.1 (open_view 1 1) true false tagged4.2 = Ok na /\
    getNeighbors tagged4.1 (open_view 1 0) false true tagged4.2 = Ok nb /\
    (has na (coords (open_view 1 0)) <-> has nb (coords (open_view 1 1))).
Proof.
  apply (getNeighbors_orthogonal_symmetric
           tagged4.1 tagged4.2 (open_view 1 1) (open_view 1 0) Spec.Top
           true false false true); vm_compute; reflexivity.
Defined.

(** ** Further properties: grids without border tags *)

Lemma forallb_lookup {A} (f : A -> bool) (l : list A) (i : nat) (a : A) :
  forallb f l = true -> l !! i = Some a -> f a = true.
Proof.
  revert i. induction l as [|b l IH]; intros i Hall Hi; [done|].
  simpl in Hall. apply andb_true_iff in Hall as [Hb Hl].
  destruct i as [|i]; simpl in Hi; [by injection Hi as <- | eauto].
Qed.

Lemma booleans_cell (g : Grid.t) (h : Heap) (x y : Z) (n : Node.t) :
  booleans g h = true -> cell g h x y = Some n ->
  is_boolean (Node.walkable n) = true.
Proof.
  unfold booleans, cell. intros Hall Hc.
  destruct (index (nodes g) y) as [row|] eqn:Hrow; [|done].
  destruct (index row x) as [l|] eqn:Hl; [|done].
  apply index_Some in Hrow as [_ Hrow], Hl as [_ Hl].
  pose proof (forallb_lookup _ _ _ _ Hall Hrow) as Hr. simpl in Hr.
  pose proof (forallb_lookup _ _ _ _ Hr Hl) as Hn. simpl in Hn.
  by rewrite Hc in Hn.
Qed.

(** Without tags the border asked makes no difference. *)
Lemma walk_boolean (g : Grid.t) (h : Heap) (x y : Z) (b : option string) :
  booleans g h = true -> walk g h x y b = clear g h (x, y).
Proof.
  intros Hall. unfold clear, walk. simpl. f_equal.
  destruct (cell g h x y) as [n|] eqn:Hc; [|done].
  pose proof (booleans_cell g h x y n Hall Hc) as Hb.
  by destruct (Node.walkable n).
Qed.

Lemma step_ok_boolean (g : Grid.t) (h : Heap) (p : Z * Z) (s : Spec.Side) :
  booleans g h = true ->
  Spec.step_ok g h p s = clear g h (Spec.towards s p) && clear g h p.
Proof.
  intros Hall. unfold Spec.step_ok. rewrite !walk_boolean by done.
  by destruct p, (Spec.towards s _).
Qed.

(** Without tags a move is made exactly when its way is clear, whatever the
    corner policy. *)
Lemma included_boolean (g : Grid.t) (h : Heap) (dcc : bool) (p : Z * Z)
    (d : Spec.Dir) :
  booleans g h = true ->
  Spec.included g h dcc p d = clear_way g h p d.
Proof.
  intros Hall. destruct d as [s|a b]; simpl.
  - rewrite step_ok_boolean by done. apply andb_comm.
  - unfold Spec.four_checks, Spec.eligible.
    rewrite !step_ok_boolean by done. rewrite (towards_comm b a p).
    destruct dcc; btauto.
Qed.

Lemma neighbors_boolean_policy (g : Grid.t) (h : Heap) (node : Node.view)
    (ad dcc dcc' : bool) :
  booleans g h = true ->
  Spec.neighbors g h node ad dcc = Spec.neighbors g h node ad dcc'.
Proof.
  intros Hall. unfold Spec.neighbors. f_equal.
  apply map_ext. intros d. unfold Spec.entry.
  by rewrite !(included_boolean g h _ _ d Hall).
Qed.

Lemma open_at_clear (g : Grid.t) (h : Heap) (q : Z * Z) :
  wf g h = true -> open_at g h q <-> clear g h q = true.
Proof.
  intros Hwf. unfold open_at, clear. rewrite isWalkableAt_wf by done.
  split; [by intros [= ->] | by intros ->].
Qed.

(** X8. In a grid whose nodes all have boolean attributes the corner
    policy makes no difference: [getNeighbors] returns the same with
    [dontCrossCorners] and without it, and a diagonal neighbour is present
    iff the origin, the two flanking cells and the target are all
    walkable.  One open flanking cell never suffices. *)
Theorem getNeighbors_boolean_grid_ignores_policy
    (g : Grid.t) (h : Heap) (node : Node.view) :
  wf g h = true -> booleans g h = true ->
  exists ns,
    getNeighbors g node true true h = Ok ns /\
    getNeighbors g node true false h = Ok ns /\
    forall a b, (a, b) ∈ diagonals ->
      let p := coords node in
      has ns (Spec.target (Spec.Diagonal a b) p) <->
      open_at g h p /\ open_at g h (Spec.towards a p) /\
      open_at g h (Spec.towards b p) /\
      open_at g h (Spec.target (Spec.Diagonal a b) p).
Proof.
  intros Hwf Hall. exists (Spec.neighbors g h node true true).
  split; [by apply getNeighbors_refines|]. split.
  - rewrite getNeighbors_refines by done.
    by rewrite (neighbors_boolean_policy g h node true false true).
  - intros a b Hab p. subst p.
    rewrite (has_target g h node true true (Spec.Diagonal a b) Hwf
               (diagonal_in_order a b Hab)).
    rewrite included_boolean by done. rewrite !open_at_clear by done.
    simpl. rewrite !andb_true_iff.
    pose proof (diagonal_in_order a b Hab). tauto.
Qed.

Lemma getNeighbors_boolean_grid_ignores_policy_witness :
  exists ns,
    getNeighbors ring3.1 (open_view 0 0) true true ring3.2 = Ok ns /\
    getNeighbors ring3.1 (open_view 0 0) true false ring3.2 = Ok ns /\
    forall a b, (a, b) ∈ diagonals ->
      let p := (0, 0) in
      has ns (Spec.target (Spec.Diagonal a b) p) <->
      open_at ring3.1 ring3.2 p /\
      open_at ring3.1 ring3.2 (Spec.towards a p) /\
      open_at ring3.1 ring3.2 (Spec.towards b p) /\
      open_at ring3.1 ring3.2 (Spec.target (Spec.Diagonal a b) p).
Proof.
  apply (getNeighbors_boolean_grid_ignores_policy
           ring3.1 ring3.2 (open_view 0 0)); vm_compute; reflexivity.
Defined.

(** Membership in the enumeration, for any position. *)
Lemma has_some_dir (g : Grid.t) (h : Heap) (node : Node.view) (ad dcc : bool)
    (q : Z * Z) :
  wf g h = true ->
  has (Spec.neighbors g h node ad dcc) q <->
  exists d, d ∈ Spec.order ad /\
            Spec.included g h dcc (coords node) d = true /\
            Spec.target d (coords node) = q.
Proof.
  intros Hwf. split.
  - intros (v & (d & Hd & Hv)%elem_of_concat_map & Hq).
    exists d. split; [done|].
    destruct (entry_cases g h dcc (coords node) d Hwf)
      as [[_ He] | (Hinc & v' & He & Hv' & _)]; rewrite He in Hv.
    + by apply elem_of_nil in Hv.
    + apply list_elem_of_singleton in Hv as ->. split; [done | congruence].
  - intros (d & Hd & Hinc & <-).
    apply has_target; eauto using order_true.
Qed.

Lemma reverse_in_order (d : Spec.Dir) :
  d ∈ Spec.order true -> reverse d ∈ Spec.order true.
Proof.
  unfold Spec.order. simpl. intros Hd.
  repeat (apply elem_of_cons in Hd as [-> | Hd]);
    [| | | | | | | | by apply elem_of_nil in Hd]; simpl;
    repeat ((by apply list_elem_of_here) || apply list_elem_of_further).
Qed.

Lemma target_reverse (d : Spec.Dir) (p : Z * Z) :
  Spec.target (reverse d) (Spec.target d p) = p.
Proof.
  destruct d as [s|a b]; simpl; [apply towards_opposite|].
  rewrite (towards_comm (Spec.opposite b) a), towards_opposite.
  apply towards_opposite.
Qed.

Lemma clear_way_reverse (g : Grid.t) (h : Heap) (p : Z * Z) (d : Spec.Dir) :
  clear_way g h (Spec.target d p) (reverse d) = clear_way g h p d.
Proof.
  destruct d as [s|a b]; simpl.
  - rewrite towards_opposite. apply andb_comm.
  - rewrite (towards_comm (Spec.opposite b) a (Spec.towards b p)).
    rewrite !towards_opposite. btauto.
Qed.

Lemma boolean_neighbour_back (g : Grid.t) (h : Heap) (a b : Node.view)
    (dcc dcc' : bool) :
  wf g h = true -> booleans g h = true ->
  has (Spec.neighbors g h a true dcc) (coords b) ->
  has (Spec.neighbors g h b true dcc') (coords a).
Proof.
  intros Hwf Hall (d & Hd & Hinc & Hb)%has_some_dir; [|done].
  apply has_some_dir; [done|]. exists (reverse d).
  split; [by apply reverse_in_order|].
  rewrite <- Hb. split; [|apply target_reverse].
  rewrite included_boolean in Hinc |- * by done.
  by rewrite clear_way_reverse.
Qed.

(** X9. In a grid whose nodes all have boolean attributes, and with
    diagonals allowed, being a neighbour is symmetric: [b] is among the
    neighbours of [a] iff [a] is among the neighbours of [b], under any
    corner policies. *)
Theorem getNeighbors_boolean_grid_symmetric
    (g : Grid.t) (h : Heap) (a b : Node.view) (dcc dcc' : bool) :
  wf g h = true -> booleans g h = true ->
  exists na nb,
    getNeighbors g a true dcc h = Ok na /\
    getNeighbors g b true dcc' h = Ok nb /\
    (has na (coords b) <-> has nb (coords a)).
Proof.
  intros Hwf Hall.
  exists (Spec.neighbors g h a true dcc), (Spec.neighbors g h b true dcc').
  split; [by apply getNeighbors_refines|].
  split; [by apply getNeighbors_refines|].
  split; by apply boolean_neighbour_back.
Qed.

Lemma getNeighbors_boolean_grid_symmetric_witness :
  exists na nb,
    getNeighbors open4.1 (open_view 1 1) true false open4.2 = Ok na /\
    getNeighbors open4.1 (open_view 2 2) true true open4.2 = Ok nb /\
    (has na (coords (open_view 2 2)) <-> has nb (coords (open_view 1 1))).
Proof.
  apply (getNeighbors_boolean_grid_symmetric
           open4.1 open4.2 (open_view 1 1) (open_view 2 2) false true);
    vm_compute; reflexivity.
Defined.

Lemma forallb_lookup_2 {A} (f : A -> bool) (l : list A) :
  (forall i a, l !! i = Some a -> f a = true) -> forallb f l = true.
Proof.
  induction l as [|b l IH]; intros Hall; [done|]. simpl.
  rewrite (Hall 0%nat b eq_refl). simpl.
  apply IH. intros i a Hi. by apply (Hall (S i)).
Qed.

(** Boolean attributes survive every change of the store that keeps the
    boolean nodes boolean. *)
Lemma booleans_store (g : Grid.t) (h h' : Heap) :
  booleans g h = true ->
  (forall l n, h !! l = Some n -> is_boolean (Node.walkable n) = true ->
     exists n', h' !! l = Some n' /\ is_boolean (Node.walkable n') = true) ->
  booleans g h' = true.
Proof.
  unfold booleans. intros Hall Hkeep.
  apply forallb_lookup_2. intros i row Hrow.
  apply forallb_lookup_2. intros j l Hl.
  pose proof (forallb_lookup _ _ _ _ Hall Hrow) as Hr. simpl in Hr.
  pose proof (forallb_lookup _ _ _ _ Hr Hl) as Hn. simpl in Hn.
  destruct (h !! l) as [n|] eqn:Hhl; [|done].
  destruct (Hkeep l n Hhl Hn) as (n' & -> & Hb). done.
Qed.

Lemma booleans_of_cells (g : Grid.t) (h : Heap) :
  (forall i row j l, nodes g !! i = Some row -> row !! j = Some l ->
     exists n, h !! l = Some n /\ is_boolean (Node.walkable n) = true) ->
  booleans g h = true.
Proof.
  intros Hcells. unfold booleans.
  apply forallb_lookup_2. intros i row Hrow.
  apply forallb_lookup_2. intros j l Hl.
  by destruct (Hcells i row j l Hrow Hl) as (n & -> & Hb).
Qed.

(** Every grid [new Grid] returns has boolean attributes only. *)
Lemma new_booleans (width height : Z) (om : option Matrix) (h0 h : Heap)
    (g : Grid.t) :
  Grid.new width height om h0 = (Ok g, h) -> booleans g h = true.
Proof.
  intros Hnew. apply booleans_of_cells. destruct om as [m|].
  - destruct (new_matrix_inv _ _ _ _ _ _ Hnew)
      as (nodes & h1 & -> & _ & (_ & _ & Hm)).
    intros i row j l Hrow Hl. simpl in Hrow.
    rewrite (Hm i row j l Hrow Hl). eauto.
  - destruct (new_open_inv _ _ _ _ _ Hnew) as (nodes & -> & (_ & _ & Hc)).
    intros i row j l Hrow Hl. simpl in Hrow.
    destruct (Hc i row Hrow) as [_ Hcr]. destruct (Hcr j l Hl) as [_ ->].
    eauto.
Qed.

Lemma call_booleans (c : Call) (g : Grid.t) (h : Heap) :
  wf g h = true -> booleans g h = true -> stores_tag c = false ->
  booleans (call c g h).1.1 (call c g h).1.2 = true.
Proof.
  intros Hwf Hall Htag. destruct c; simpl; try done.
  - destruct walkable as [b|tag]; [|done].
    unfold setWalkableAt, bind, read.
    destruct (node_ref (nodes g) y x) as [l|e]; simpl; [|done].
    unfold assign_walkable. destruct (h !! l) as [n|] eqn:Hn; simpl; [|done].
    apply (booleans_store g h); [done|]. intros l' n' Hn' Hb.
    destruct (decide (l = l')) as [->|Hne].
    + rewrite list_lookup_insert_eq by (by apply lookup_lt_Some in Hn). eauto.
    + rewrite list_lookup_insert_ne by done. eauto.
  - destruct (clone_ok g h Hwf) as (nodes' & h1 & h' & -> & Hpre1 & Hpre2 & _).
    simpl. destruct (transitivity Hpre1 Hpre2) as [ext ->].
    apply (booleans_store g h); [done|]. intros l n Hn Hb.
    exists n. by rewrite (lookup_app_l_Some _ _ _ _ Hn).
Qed.

(** X10. A grid has boolean attributes only from its construction on, with
    or without a matrix, for as long as no call stores a tag with
    [setWalkableAt]; until then, by X8, the corner policy of
    [getNeighbors] makes no difference. *)
Theorem booleans_until_a_tag_is_stored
    (width height : Z) (om : option Matrix) (h0 h : Heap) (g : Grid.t)
    (cs : list Call) :
  Grid.new width height om h0 = (Ok g, h) ->
  forallb (fun c => negb (stores_tag c)) cs = true ->
  booleans (run cs g h).1 (run cs g h).2 = true
  /\ forall node,
       getNeighbors (run cs g h).1 node true true (run cs g h).2
       = getNeighbors (run cs g h).1 node true false (run cs g h).2.
Proof.
  intros Hnew Hcs.
  assert (wf (run cs g h).1 (run cs g h).2 = true
          /\ booleans (run cs g h).1 (run cs g h).2 = true) as [Hwf Hall].
  { pose proof (new_wf _ _ _ _ _ _ Hnew) as Hwf.
    pose proof (new_booleans _ _ _ _ _ _ Hnew) as Hall.
    clear Hnew. revert g h Hwf Hall.
    induction cs as [|c cs IH]; intros g h Hwf Hall; [done|].
    simpl in Hcs. apply andb_true_iff in Hcs as [Hc Hcs].
    apply negb_true_iff in Hc. rewrite run_cons.
    apply IH; [done | by apply call_wf | by apply call_booleans]. }
  split; [done|]. intros node. rewrite !getNeighbors_refines by done.
  by rewrite (neighbors_boolean_policy _ _ node true true false).
Qed.

Lemma booleans_until_a_tag_is_stored_witness :
  booleans (run [CallSetWalkableAt 0 0 (Node.WBool false); CallClone;
                 CallIncrement] ring3.1 ring3.2).1
           (run [CallSetWalkableAt 0 0 (Node.WBool false); CallClone;
                 CallIncrement] ring3.1 ring3.2).2 = true
  /\ forall node,
       getNeighbors
         (run [CallSetWalkableAt 0 0 (Node.WBool false); CallClone;
               CallIncrement] ring3.1 ring3.2).1 node true true
         (run [CallSetWalkableAt 0 0 (Node.WBool false); CallClone;
               CallIncrement] ring3.1 ring3.2).2
       = getNeighbors
           (run [CallSetWalkableAt 0 0 (Node.WBool false); CallClone;
                 CallIncrement] ring3.1 ring3.2).1 node true false
           (run [CallSetWalkableAt 0 0 (Node.WBool false); CallClone;
                 CallIncrement] ring3.1 ring3.2).2.
Proof.
  apply (booleans_until_a_tag_is_stored 3 3 (Some ring_matrix) []
           ring3.2 ring3.1); vm_compute; reflexivity.
Defined.

(** ** Further properties: grids without obstacles *)

(** The cells of a grid constructed without a matrix. *)
Lemma open_cell (width height : Z) (h0 h : Heap) (g : Grid.t) (x y : Z) :
  Grid.new width height None h0 = (Ok g, h) -> isInside g x y = true ->
  cell g h x y = Some (Node.mk x y (Node.WBool true)) /\ iteration g = 0.
Proof.
  intros Hnew Hin.
  destruct (new_open_inv _ _ _ _ _ Hnew) as (nodes & -> & (_ & Hlen & Hc)).
  destruct (inside_lookup (Grid.mk width height nodes 0) x y Hlen
              (fun i row Hr => proj1 (Hc i row Hr)) Hin)
    as (i & j & row & l & -> & -> & Hrow & Hl).
  rewrite (cell_lookup _ h i j row l Hrow Hl).
  destruct (Hc i row Hrow) as [_ Hcr]. by destruct (Hcr j l Hl) as [_ ->].
Qed.

Lemma open_step (width height : Z) (h0 h : Heap) (g : Grid.t) (p : Z * Z)
    (s : Spec.Side) :
  Grid.new width height None h0 = (Ok g, h) ->
  isInside g p.1 p.2 = true ->
  isInside g (Spec.towards s p).1 (Spec.towards s p).2 = true ->
  Spec.step_ok g h p s = true.
Proof.
  intros Hnew Hp Ht. unfold Spec.step_ok, walk. rewrite Hp, Ht.
  destruct (open_cell _ _ _ _ _ _ _ Hnew Hp) as [-> _].
  by destruct (open_cell _ _ _ _ _ _ _ Hnew Ht) as [-> _].
Qed.

Lemma open_view_at (width height : Z) (h0 h : Heap) (g : Grid.t) (x y : Z) :
  Grid.new width height None h0 = (Ok g, h) -> isInside g x y = true ->
  view_at g h x y = Some (open_view x y).
Proof.
  intros Hnew Hin. unfold view_at.
  destruct (open_cell _ _ _ _ _ _ _ Hnew Hin) as [-> ->]. done.
Qed.

(** X11. In a grid constructed without a matrix, of any size, a node that
    is not on the rim has all its neighbours: the four orthogonal ones
    without diagonals, all eight with diagonals under either corner policy,
    in the order of the enumeration, every one walkable and read at
    generation zero. *)
Theorem getNeighbors_open_grid_interior
    (width height : Z) (h0 h : Heap) (g : Grid.t) (node : Node.view)
    (ad dcc : bool) :
  Grid.new width height None h0 = (Ok g, h) ->
  0 < Node.vx node < width - 1 -> 0 < Node.vy node < height - 1 ->
  getNeighbors g node ad dcc h
  = Ok (map (fun q => open_view q.1 q.2)
          (take (if ad then 8 else 4)
             (around (Node.vx node) (Node.vy node)))).
Proof.
  intros Hnew Hx Hy.
  rewrite getNeighbors_refines by (by eapply new_wf). f_equal.
  pose proof (new_open_inv _ _ _ _ _ Hnew) as (nodes & Hg & _).
  assert (forall a b, 0 <= a < width -> 0 <= b < height ->
                      isInside g a b = true) as Hin.
  { intros a b Ha Hb. apply isInside_spec. by rewrite Hg. }
  destruct node as [x y w gen]. simpl in Hx, Hy.
  unfold Spec.neighbors, Spec.order, Spec.entry, Spec.included,
    Spec.four_checks, Spec.eligible, coords,
    Spec.up, Spec.right, Spec.down, Spec.left,
    Spec.up_left, Spec.up_right, Spec.down_right, Spec.down_left.
  cbn [Node.vx Node.vy].
  destruct ad; cbn [app map concat Spec.target Spec.towards fst snd].
  all: rewrite !(open_step width height h0 h g _ _ Hnew)
         by (cbn [Spec.towards fst snd]; apply Hin; lia).
  all: try destruct dcc; cbn [andb orb].
  all: rewrite !(open_view_at width height h0 h g _ _ Hnew)
         by (apply Hin; lia).
  all: reflexivity.
Qed.

Lemma getNeighbors_open_grid_interior_witness :
  getNeighbors open4.1 (open_view 2 1) true true open4.2
  = Ok (map (fun q => open_view q.1 q.2) (take 8 (around 2 1))).
Proof.
  apply (getNeighbors_open_grid_interior 4 4 [] open4.2 open4.1
           (open_view 2 1) true true); [vm_compute; reflexivity | | ];
    simpl; lia.
Defined.

(** ** Further properties: clones and generations *)

(** The enumeration depends on the grid and the store through [walk] and
    [view_at] only. *)
Lemma included_ext (g g' : Grid.t) (h h' : Heap) (dcc : bool) (p : Z * Z)
    (d : Spec.Dir) :
  (forall x y b, walk g' h' x y b = walk g h x y b) ->
  Spec.included g' h' dcc p d = Spec.included g h dcc p d.
Proof.
  intros Hwalk. destruct d as [s|a b]; simpl;
    unfold Spec.four_checks, Spec.step_ok; by rewrite !Hwalk.
Qed.

Lemma neighbors_strip_ext (g g' : Grid.t) (h h' : Heap) (node : Node.view)
    (ad dcc : bool) :
  (forall x y b, walk g' h' x y b = walk g h x y b) ->
  (forall x y, strip <$> view_at g' h' x y = strip <$> view_at g h x y) ->
  map strip (Spec.neighbors g' h' node ad dcc)
  = map strip (Spec.neighbors g h node ad dcc).
Proof.
  intros Hwalk Hview. unfold Spec.neighbors.
  induction (Spec.order ad) as [|d ds IH]; [done|].
  simpl. rewrite !map_app, IH. f_equal.
  unfold Spec.entry. rewrite (included_ext g g' h h') by done.
  destruct (Spec.included g h dcc (coords node) d); [|done].
  specialize (Hview (Spec.target d (coords node)).1
                    (Spec.target d (coords node)).2).
  destruct (view_at g' h' _ _), (view_at g h _ _); simpl in *; congruence.
Qed.

Lemma wf_cell_outside (g : Grid.t) (h : Heap) (x y : Z) :
  wf g h = true -> isInside g x y = false -> cell g h x y = None.
Proof.
  intros Hwf Hout. destruct (cell g h x y) as [n|] eqn:Hc; [|done].
  pose proof (wf_cell_inside g h x y n Hwf Hc). congruence.
Qed.

(** The cells of a clone. *)
Lemma clone_cell (g : Grid.t) (h : Heap) (nodes' : list (list loc))
    (h1 h' : Heap) (x y : Z) (n : Node.t) :
  filled (attribute g h) (width g) (height g) h1 nodes' h' ->
  isInside g x y = true -> cell g h x y = Some n ->
  cell (Grid.mk (width g) (height g) nodes' 0) h' x y
  = Some (Node.mk x y (Node.walkable n)).
Proof.
  intros (_ & Hlen & Hcells) Hin Hc.
  destruct (inside_lookup (Grid.mk (width g) (height g) nodes' 0) x y Hlen
              (fun i row Hr => proj1 (Hcells i row Hr)) Hin)
    as (i & j & row & l' & -> & -> & Hrow & Hl').
  rewrite (cell_lookup _ h' i j row l' Hrow Hl').
  destruct (Hcells i row Hrow) as [_ Hcr].
  destruct (Hcr j l' Hl') as [_ ->]. unfold attribute. by rewrite Hc.
Qed.

(** X12. A clone answers as its source: after [clone], [isWalkableAt] on
    the clone equals [isWalkableAt] on the source before the call at every
    position and for every border; the source answers as before; and
    [getNeighbors] on the clone returns the same neighbours, in
    coordinates and attributes, only read at the generation of the
    clone. *)
Theorem clone_answers_as_source (g : Grid.t) (h : Heap) :
  wf g h = true ->
  exists g' h',
    clone g h = (Ok g', h') /\
    (forall x y border,
       isWalkableAt g' x y border h' = isWalkableAt g x y border h) /\
    (forall x y border,
       isWalkableAt g x y border h' = isWalkableAt g x y border h) /\
    (forall node ad dcc,
       rmap (map strip) (getNeighbors g' node ad dcc h')
       = rmap (map strip) (getNeighbors g node ad dcc h)).
Proof.
  intros Hwf. pose proof Hwf as ([Hh Hw]%sizes_ok_spec & _)%wf_spec.
  destruct (clone_ok g h Hwf) as (nodes' & h1 & h' & Hclone & Hpre1 & Hfilled).
  set (g' := Grid.mk (width g) (height g) nodes' 0) in *.
  assert (wf g' h' = true) as Hwf' by (by eapply wf_of_filled).
  assert (forall x y b, walk g' h' x y b = walk g h x y b) as Hwalk.
  { intros x y b. unfold walk.
    change (isInside g' x y) with (isInside g x y).
    destruct (isInside g x y) eqn:Hin; [|done]. simpl.
    destruct (wf_inside_cell g h x y Hwf Hin) as (l & n & _ & _ & Hc & _).
    unfold g'.
    by rewrite (clone_cell g h nodes' h1 h' x y n Hfilled Hin Hc), Hc. }
  assert (forall x y, strip <$> view_at g' h' x y = strip <$> view_at g h x y)
    as Hview.
  { intros x y. unfold view_at.
    destruct (isInside g x y) eqn:Hin.
    - destruct (wf_inside_cell g h x y Hwf Hin)
        as (l & n & _ & _ & Hc & Hx & Hy).
      unfold g'.
      rewrite (clone_cell g h nodes' h1 h' x y n Hfilled Hin Hc), Hc. simpl.
      unfold strip. simpl. by rewrite Hx, Hy.
    - rewrite (wf_cell_outside g h x y Hwf Hin).
      by rewrite (wf_cell_outside g' h' x y Hwf' Hin). }
  exists g', h'. split; [done|]. split; [|split].
  - intros x y border. rewrite !isWalkableAt_wf by done. by rewrite Hwalk.
  - intros x y border. apply isWalkableAt_ext. intros l Hl.
    destruct (wf_ref g h x y l Hwf Hl) as [Hlt _].
    destruct Hfilled as (Hpre2 & _).
    destruct (transitivity Hpre1 Hpre2) as [ext ->].
    by rewrite lookup_app_l.
  - intros node ad dcc. rewrite !getNeighbors_refines by done. simpl.
    by rewrite (neighbors_strip_ext g g' h h').
Qed.

Lemma clone_answers_as_source_witness :
  exists g' h',
    clone tagged4.1 tagged4.2 = (Ok g', h') /\
    (forall x y border,
       isWalkableAt g' x y border h'
       = isWalkableAt tagged4.1 x y border tagged4.2) /\
    (forall x y border,
       isWalkableAt tagged4.1 x y border h'
       = isWalkableAt tagged4.1 x y border tagged4.2) /\
    (forall node ad dcc,
       rmap (map strip) (getNeighbors g' node ad dcc h')
       = rmap (map strip) (getNeighbors tagged4.1 node ad dcc tagged4.2)).
Proof.
  apply (clone_answers_as_source tagged4.1 tagged4.2). vm_compute; reflexivity.
Defined.

Lemma neighbors_generation (g : Grid.t) (h : Heap) (node : Node.view)
    (ad dcc : bool) :
  wf g h = true ->
  Forall (fun v => Node.generation v = iteration g)
         (Spec.neighbors g h node ad dcc).
Proof.
  intros Hwf. apply Forall_forall.
  intros v (d & _ & Hv)%elem_of_concat_map.
  destruct (entry_cases g h dcc (coords node) d Hwf)
    as [[_ He] | (_ & v' & He & _ & Hgen)]; rewrite He in Hv.
  - by apply elem_of_nil in Hv.
  - by apply list_elem_of_singleton in Hv as ->.
Qed.

Lemma wf_increment (g : Grid.t) (h : Heap) :
  wf (increment g) h = wf g h.
Proof. reflexivity. Qed.

(** X13. The generation reaches the callers through the views only:
    [increment()] changes no answer of [isWalkableAt], and [getNeighbors]
    returns the same neighbours, in coordinates and attributes; the views
    [getNeighbors] returns are all read at the current generation of the
    grid: the double nearest to one more after [increment()], which is
    exactly one more as long as the generation is below 2^53 and is 2^53
    again once it is 2^53. *)
Theorem increment_changes_generation_only
    (g : Grid.t) (h : Heap) (node : Node.view) (ad dcc : bool) :
  wf g h = true ->
  (forall x y border,
     isWalkableAt (increment g) x y border h = isWalkableAt g x y border h)
  /\ exists ns ns',
       getNeighbors g node ad dcc h = Ok ns /\
       getNeighbors (increment g) node ad dcc h = Ok ns' /\
       map strip ns' = map strip ns /\
       Forall (fun v => Node.generation v = iteration g) ns /\
       Forall (fun v => Node.generation v = to_double (iteration g + 1)) ns' /\
       (- 2 ^ 53 <= iteration g < 2 ^ 53 ->
        Forall (fun v => Node.generation v = iteration g + 1) ns') /\
       (iteration g = 2 ^ 53 ->
        Forall (fun v => Node.generation v = 2 ^ 53) ns').
Proof.
  intros Hwf. split; [done|].
  exists (Spec.neighbors g h node ad dcc),
    (Spec.neighbors (increment g) h node ad dcc).
  split; [by apply getNeighbors_refines|].
  split; [by apply getNeighbors_refines|].
  split.
  { apply neighbors_strip_ext; [reflexivity|]. intros x y. unfold view_at.
    change (cell (increment g) h x y) with (cell g h x y).
    by destruct (cell g h x y). }
  split; [by apply neighbors_generation|].
  pose proof (neighbors_generation (increment g) h node ad dcc Hwf) as Hgen.
  simpl in Hgen. split; [done|]. split.
  - intros Hg. by rewrite to_double_exact in Hgen by lia.
  - intros Hg. by rewrite Hg, to_double_stops in Hgen.
Qed.

Lemma increment_changes_generation_only_witness :
  (forall x y border,
     isWalkableAt (increment tagged4.1) x y border tagged4.2
     = isWalkableAt tagged4.1 x y border tagged4.2)
  /\ exists ns ns',
       getNeighbors tagged4.1 (open_view 2 2) true false tagged4.2 = Ok ns /\
       getNeighbors (increment tagged4.1) (open_view 2 2) true false tagged4.2
       = Ok ns' /\
       map strip ns' = map strip ns /\
       Forall (fun v => Node.generation v = iteration tagged4.1) ns /\
       Forall (fun v => Node.generation v = iteration tagged4.1 + 1) ns'.
Proof.
  destruct (increment_changes_generation_only
              tagged4.1 tagged4.2 (open_view 2 2) true false)
    as (Hw & ns & ns' & Hns & Hns' & Hstrip & Hgen & _ & Hnext & _).
  { vm_compute; reflexivity. }
  split; [exact Hw|]. exists ns, ns'.
  repeat (split; [assumption|]).
  apply Hnext.
  assert (iteration tagged4.1 = 0) as -> by (vm_compute; reflexivity). lia.
Defined.

(** ** Further properties: border tags *)

Lemma tag_differs (s s' : Spec.Side) (name : string) :
  Spec.tag s = Some name -> s' <> s -> differs name (Spec.tag s') = true.
Proof. intros [= <-] Hne. by destruct s, s'. Qed.

(** X14. A border tag closes its side of the cell, in both directions, and
    no other side: when the node of [a] carries the tag of side [s], the
    cell on side [s] is not among the neighbours of [a], [a] is not among
    the neighbours of that cell, and the neighbour on any other side [s']
    is present iff it is itself walkable from the side facing [a]. *)
Theorem border_tag_closes_its_side
    (g : Grid.t) (h : Heap) (a b : Node.view) (n : Node.t) (s : Spec.Side)
    (name : string) (ad dcc ad' dcc' : bool) :
  wf g h = true ->
  cell g h (Node.vx a) (Node.vy a) = Some n ->
  Node.walkable n = Node.WTag name -> Spec.tag s = Some name ->
  coords b = Spec.towards s (coords a) ->
  exists na nb,
    getNeighbors g a ad dcc h = Ok na /\
    getNeighbors g b ad' dcc' h = Ok nb /\
    ~ has na (coords b) /\ ~ has nb (coords a) /\
    forall s', s' <> s ->
      (has na (Spec.towards s' (coords a)) <->
       passes g h (Spec.towards s' (coords a)) (Spec.opposite s')).
Proof.
  intros Hwf Hc Hw Hs Hb.
  pose proof (wf_cell_inside g h _ _ n Hwf Hc) as Hin.
  assert (forall s', walk g h (Node.vx a) (Node.vy a) (Spec.tag s')
                     = differs name (Spec.tag s')) as Hwalk.
  { intros s'. unfold walk. by rewrite Hin, Hc, Hw. }
  assert (Spec.step_ok g h (coords a) s = false) as Hclosed.
  { unfold Spec.step_ok. simpl. rewrite Hwalk, Hs. simpl.
    rewrite String.eqb_refl. apply andb_false_r. }
  exists (Spec.neighbors g h a ad dcc), (Spec.neighbors g h b ad' dcc').
  split; [by apply getNeighbors_refines|].
  split; [by apply getNeighbors_refines|]. split; [|split].
  - rewrite Hb, has_straight by done. by rewrite Hclosed.
  - pose proof (has_straight g h b ad' dcc' (Spec.opposite s) Hwf) as Hback.
    rewrite Hb, towards_opposite, step_ok_back in Hback.
    rewrite Hback. by rewrite Hclosed.
  - intros s' Hne. rewrite has_straight, passes_walk by done.
    unfold Spec.step_ok. simpl.
    rewrite (Hwalk s'), (tag_differs s s' name Hs Hne). by rewrite andb_true_r.
Qed.

Lemma border_tag_closes_its_side_witness :
  exists na nb,
    getNeighbors tagged4.1 (open_view 1 1) true false tagged4.2 = Ok na /\
    getNeighbors tagged4.1 (open_view 1 0) true false tagged4.2 = Ok nb /\
    ~ has na (coords (open_view 1 0)) /\ ~ has nb (coords (open_view 1 1)) /\
    forall s', s' <> Spec.Top ->
      (has na (Spec.towards s' (coords (open_view 1 1))) <->
       passes tagged4.1 tagged4.2 (Spec.towards s' (coords (open_view 1 1)))
         (Spec.opposite s')).
Proof.
  apply (border_tag_closes_its_side
           tagged4.1 tagged4.2 (open_view 1 1) (open_view 1 0)
           (Node.mk 1 1 (Node.WTag "top")) Spec.Top "top"
           true false true false); vm_compute; reflexivity.
Defined.

(** ** Further properties: what the construction allocates and when it
    throws *)

Lemma length_grid_nodes (m : nat) (i : Z) (wn : nat)
    (W : Z -> Z -> option Node.Walkable) :
  length (grid_nodes m i wn W) = (m * wn)%nat.
Proof.
  revert i. induction m as [|m IH]; intros i; simpl; [done|].
  by rewrite length_app, length_row_nodes, IH.
Qed.

(** A store that agrees with [h0 ++ f] on [h0] and has its length extends
    [h0] by as many nodes as [f] has. *)
Lemma store_extends (h0 f h2 : Heap) :
  length h2 = length (h0 ++ f) ->
  (forall l, (l < length h0)%nat -> h2 !! l = (h0 ++ f) !! l) ->
  exists f', h2 = h0 ++ f' /\ length f' = length f.
Proof.
  intros Hlen Hold. exists (drop (length h0) h2). split.
  - rewrite <- (take_drop (length h0) h2) at 1. f_equal.
    apply list_eq. intros l.
    destruct (decide (l < length h0)%nat) as [Hl|Hl].
    + rewrite lookup_take_lt by done. rewrite Hold by done.
      by rewrite lookup_app_l.
    + rewrite lookup_take_ge by lia. by rewrite lookup_ge_None_2 by lia.
  - rewrite length_drop, Hlen, length_app. lia.
Qed.

(** X15. The nodes are allocated before the matrix is looked at: for sizes
    that are array lengths, [new Grid] appends exactly [height * width]
    nodes to the store, whether it returns or throws on the matrix, and
    leaves the nodes the store had untouched. *)
Theorem construction_allocates_all_nodes
    (width height : Z) (om : option Matrix) (h0 : Heap) :
  array_length height -> (height <> 0 -> array_length width) ->
  exists fresh,
    (Grid.new width height om h0).2 = h0 ++ fresh /\
    length fresh = (Z.to_nat height * Z.to_nat width)%nat.
Proof.
  intros Hh Hw.
  destruct (new_unfold width height om h0 Hh Hw) as [Hfilled Heq].
  cbv zeta in Hfilled, Heq. rewrite Heq.
  set (fresh := grid_nodes (Z.to_nat height) 0 (Z.to_nat width)
                  (fun _ _ => None)) in *.
  assert (length fresh = (Z.to_nat height * Z.to_nat width)%nat) as Hlen
    by apply length_grid_nodes.
  destruct om as [m|]; [|by exists fresh].
  destruct (negb (Z.of_nat (length m) =? height)) eqn:Hrows;
    [by exists fresh|].
  destruct m as [|row0 m']; [by exists fresh|].
  destruct (negb (Z.of_nat (length row0) =? width)); [by exists fresh|].
  apply negb_false_iff, Z.eqb_eq in Hrows.
  destruct (mark_nodes_ok width height (row0 :: m') h0 _ _ Hfilled)
    as (h2 & -> & (Hlen2 & Hold & _)); [lia|]. simpl.
  destruct (store_extends h0 fresh h2 Hlen2 Hold) as (f' & -> & Hf').
  exists f'. split; [done | lia].
Qed.

Lemma construction_allocates_all_nodes_witness :
  exists fresh,
    (Grid.new 3 2 (Some ragged) []).2 = [] ++ fresh /\
    length fresh = (Z.to_nat 2 * Z.to_nat 3)%nat.
Proof.
  apply (construction_allocates_all_nodes 3 2 (Some ragged) []);
    unfold array_length; lia.
Defined.

(** X16. Sizes that are not array lengths, and the height zero: a height
    that is negative or too large makes [new Grid] throw a [RangeError],
    and so does such a width when the height is not zero, in both cases
    before any node is allocated; with height zero the width is never
    used: the construction returns an empty grid, and given the empty
    matrix it throws a [TypeError] from the size check itself. *)
Theorem construction_edge_sizes
    (width height : Z) (om : option Matrix) (h0 : Heap) :
  (~ array_length height ->
   Grid.new width height om h0 = (Throw RangeError, h0))
  /\ (array_length height -> height <> 0 -> ~ array_length width ->
      Grid.new width height om h0 = (Throw RangeError, h0))
  /\ (height = 0 ->
      Grid.new width height None h0 = (Ok (Grid.mk width 0 [] 0), h0)
      /\ Grid.new width height (Some []) h0 = (Throw TypeError, h0)).
Proof.
  split; [|split].
  - intros Hbad. unfold Grid.new, _buildNodes, fill_nodes, bind.
    by rewrite (new_Array_throw height h0 Hbad).
  - intros Hh Hne Hbad. unfold Grid.new, _buildNodes, fill_nodes, bind.
    rewrite (new_Array_ok height h0 Hh).
    unfold array_length in Hh.
    destruct (Z.to_nat height) as [|k] eqn:Hk; [lia|]. simpl. unfold bind.
    by rewrite (new_Array_throw width h0 Hbad).
  - by intros ->.
Qed.

Lemma construction_edge_sizes_witness :
  Grid.new 3 (-1) None [] = (Throw RangeError, [])
  /\ Grid.new (-2) 3 (Some ragged) [] = (Throw RangeError, [])
  /\ Grid.new (-2) 0 None [] = (Ok (Grid.mk (-2) 0 [] 0), [])
  /\ Grid.new (-2) 0 (Some []) [] = (Throw TypeError, []).
Proof.
  split; [|split].
  - apply (proj1 (construction_edge_sizes 3 (-1) None [])).
    unfold array_length; lia.
  - apply (proj1 (proj2 (construction_edge_sizes (-2) 3 (Some ragged) [])));
      unfold array_length; lia.
  - apply (proj2 (proj2 (construction_edge_sizes (-2) 0 None []))).
    reflexivity.
Defined.

(** [clone] in closed form: the store after the nodes of the inner
    [new Grid(width, height)] and after the copies. *)
Lemma clone_eq (g : Grid.t) (h : Heap) :
  wf g h = true ->
  let unused := grid_nodes (Z.to_nat (height g)) 0 (Z.to_nat (width g))
                  (fun _ _ => None) in
  let copies := grid_nodes (Z.to_nat (height g)) 0 (Z.to_nat (width g))
                  (attribute g h) in
  clone g h
  = (Ok (Grid.mk (width g) (height g)
           (grid_locs (Z.to_nat (height g)) (length (h ++ unused))
              (Z.to_nat (width g))) 0),
     (h ++ unused) ++ copies).
Proof.
  intros Hwf unused copies.
  pose proof Hwf as ([Hh Hw]%sizes_ok_spec & _)%wf_spec.
  destruct (new_unfold (width g) (height g) None h Hh Hw) as [_ Hnew].
  cbv zeta in Hnew. fold unused in Hnew.
  assert (forall i j hc,
            0 <= i < height g -> 0 <= j < width g ->
            (h ++ unused) `prefix_of` hc ->
            (do l <- read (fun _ => node_ref (nodes g) i j);
             do n <- read (deref l);
             ret (Some (Node.walkable n))) hc
            = (Ok (attribute g h j i), hc)) as Hreads.
  { intros i j hc Hi Hj [ext2 ->].
    assert (isInside g j i = true) as Hin by (apply isInside_spec; lia).
    destruct (wf_inside_cell g h j i Hwf Hin) as (l & n & Hl & Hn & Hc & _).
    unfold bind, read, attribute. rewrite Hl, Hc. unfold deref.
    rewrite <- app_assoc. by rewrite (lookup_app_l_Some _ _ _ _ Hn). }
  unfold clone. rewrite (bind_ok _ _ _ _ _ Hnew).
  by rewrite (bind_ok _ _ _ _ _
                (fill_nodes_eq (width g) (height g) (h ++ unused) _
                   (attribute g h) Hreads Hh Hw)).
Qed.

(** X17. [clone] allocates the nodes twice: it appends to the store first
    the [height * width] nodes of the grid it constructs, all walkable,
    then as many copies of the nodes of the source; the clone refers to the
    copies only, so the first nodes are referred to by no grid. *)
Theorem clone_allocates_twice (g : Grid.t) (h : Heap) :
  wf g h = true ->
  exists g' unused copies,
    clone g h = (Ok g', h ++ unused ++ copies) /\
    length unused = (Z.to_nat (height g) * Z.to_nat (width g))%nat /\
    length copies = (Z.to_nat (height g) * Z.to_nat (width g))%nat /\
    Forall (fun n => Node.walkable n = Node.WBool true) unused /\
    forall x y l, ref_at g' x y = Ok l ->
                  (length h + length unused <= l)%nat.
Proof.
  intros Hwf. pose proof (clone_eq g h Hwf) as Hclone. cbv zeta in Hclone.
  eexists _, _, _. rewrite <- app_assoc in Hclone.
  split; [exact Hclone|].
  split; [apply length_grid_nodes|]. split; [apply length_grid_nodes|].
  split; [apply grid_nodes_open|].
  intros x y l (row & _ & Hrow & _ & Hl)%node_ref_Ok. simpl in Hrow.
  destruct (grid_locs_lookup _ _ _ 0 (attribute g h) _ _ _ _ _ Hrow Hl eq_refl)
    as (_ & Hge & _).
  by rewrite length_app in Hge.
Qed.

Lemma clone_allocates_twice_witness :
  exists g' unused copies,
    clone ring3.1 ring3.2 = (Ok g', ring3.2 ++ unused ++ copies) /\
    length unused = (Z.to_nat 3 * Z.to_nat 3)%nat /\
    length copies = (Z.to_nat 3 * Z.to_nat 3)%nat /\
    Forall (fun n => Node.walkable n = Node.WBool true) unused /\
    forall x y l, ref_at g' x y = Ok l ->
                  (length ring3.2 + length unused <= l)%nat.
Proof.
  apply (clone_allocates_twice ring3.1 ring3.2). vm_compute; reflexivity.
Defined.

(** ** Further properties: the grid over any sequence of calls *)

(** X18. From its construction on and over any sequence of calls, a grid
    keeps its width, its height and its node array; a position has a node
    iff it is inside the bounds; the node of a position carries the
    coordinates of the position; and two positions never share a node. *)
Theorem cells_are_kept
    (width height : Z) (om : option Matrix) (h0 h : Heap) (g : Grid.t)
    (cs : list Call) :
  Grid.new width height om h0 = (Ok g, h) ->
  let g' := (run cs g h).1 in
  let h' := (run cs g h).2 in
  Grid.width g' = width /\ Grid.height g' = height /\ nodes g' = nodes g /\
  (forall x y, isInside g' x y = true <-> exists l, ref_at g' x y = Ok l) /\
  (forall x y l, ref_at g' x y = Ok l ->
     exists n, h' !! l = Some n /\ Node.x n = x /\ Node.y n = y) /\
  (forall x y x' y' l, ref_at g' x y = Ok l -> ref_at g' x' y' = Ok l ->
     x = x' /\ y = y').
Proof.
  intros Hnew g' h'.
  assert (Grid.width g = width /\ Grid.height g = height) as [Hgw Hgh].
  { destruct om as [m|].
    - by destruct (new_matrix_inv _ _ _ _ _ _ Hnew) as (ns & h1 & -> & _).
    - by destruct (new_open_inv _ _ _ _ _ Hnew) as (ns & -> & _). }
  assert (wf g' h' = true) as Hwf by (by eapply run_wf, new_wf).
  assert (Grid.width g' = Grid.width g /\ Grid.height g' = Grid.height g
          /\ nodes g' = nodes g) as (Hw & Hh & Hn).
  { subst g'. clear. revert g h. induction cs as [|c cs IH]; intros g h;
      [done|].
    rewrite run_cons. destruct (call_frame c g h) as (Hw & Hh & Hn & _).
    destruct (IH (call c g h).1.1 (call c g h).1.2) as (-> & -> & ->). done. }
  split; [congruence|]. split; [congruence|]. split; [done|].
  split; [|split].
  - intros x y. split.
    + intros Hin.
      destruct (wf_inside_cell g' h' x y Hwf Hin) as (l & _ & Hl & _). eauto.
    + intros [l Hl]. by destruct (wf_ref g' h' x y l Hwf Hl).
  - intros x y l Hl. destruct (wf_ref g' h' x y l Hwf Hl) as [_ Hin].
    destruct (wf_inside_cell g' h' x y Hwf Hin)
      as (l' & n & Hl' & Hn' & _ & Hx & Hy).
    unfold ref_at in Hl. assert (l' = l) as -> by congruence. eauto.
  - intros x y x' y' l. by apply (wf_ref_inj g' h').
Qed.

Lemma cells_are_kept_witness :
  let g' := (run [CallSetWalkableAt 1 1 (Node.WTag "left"); CallClone;
                  CallIncrement; CallSetWalkableAt 9 9 (Node.WBool true)]
               ring3.1 ring3.2).1 in
  let h' := (run [CallSetWalkableAt 1 1 (Node.WTag "left"); CallClone;
                  CallIncrement; CallSetWalkableAt 9 9 (Node.WBool true)]
               ring3.1 ring3.2).2 in
  Grid.width g' = 3 /\ Grid.height g' = 3 /\ nodes g' = nodes ring3.1 /\
  (forall x y, isInside g' x y = true <-> exists l, ref_at g' x y = Ok l) /\
  (forall x y l, ref_at g' x y = Ok l ->
     exists n, h' !! l = Some n /\ Node.x n = x /\ Node.y n = y) /\
  (forall x y x' y' l, ref_at g' x y = Ok l -> ref_at g' x' y' = Ok l ->
     x = x' /\ y = y').
Proof.
  apply (cells_are_kept 3 3 (Some ring_matrix) [] ring3.2 ring3.1).
  vm_compute; reflexivity.
Defined.

Lemma walk_none (g : Grid.t) (h : Heap) (x y : Z) (b : option string) :
  walk g h x y b = true -> clear g h (x, y) = true.
Proof.
  unfold clear, walk. simpl. rewrite !andb_true_iff. intros [Hin Hw].
  split; [done|]. destruct (cell g h x y) as [n|]; [|done].
  by destruct (Node.walkable n).
Qed.

Lemma step_ok_clear (g : Grid.t) (h : Heap) (p : Z * Z) (s : Spec.Side) :
  Spec.step_ok g h p s = true ->
  clear g h p = true /\ clear g h (Spec.towards s p) = true.
Proof.
  unfold Spec.step_ok. rewrite andb_true_iff. intros [Ht Hp].
  apply walk_none in Ht, Hp. split.
  - by destruct p.
  - by destruct (Spec.towards s p).
Qed.

Lemma included_clear (g : Grid.t) (h : Heap) (dcc : bool) (p : Z * Z)
    (d : Spec.Dir) :
  Spec.included g h dcc p d = true ->
  clear g h p = true /\ clear g h (Spec.target d p) = true.
Proof.
  destruct d as [s|a b]; simpl; [apply step_ok_clear|].
  unfold Spec.four_checks, Spec.eligible. rewrite !andb_true_iff.
  intros (Hel & _ & Hb). apply step_ok_clear in Hb as [_ Ht].
  split; [|done].
  destruct dcc.
  - apply andb_true_iff in Hel as [Ha _]. by apply step_ok_clear in Ha as [? _].
  - apply orb_true_iff in Hel as [Ha|Ha]; by apply step_ok_clear in Ha as [? _].
Qed.

(** X19. [getNeighbors] never returns a blocked cell and returns nothing
    for a blocked origin: every neighbour returned is walkable when asked
    without a border, and when the result is not empty so is the cell of
    the node itself. *)
Theorem getNeighbors_returns_walkable_cells
    (g : Grid.t) (h : Heap) (node : Node.view) (ad dcc : bool) :
  wf g h = true ->
  exists ns,
    getNeighbors g node ad dcc h = Ok ns /\
    (forall v, v ∈ ns -> open_at g h (coords v)) /\
    (ns <> [] -> open_at g h (coords node)).
Proof.
  intros Hwf. exists (Spec.neighbors g h node ad dcc).
  split; [by apply getNeighbors_refines|].
  assert (forall v, v ∈ Spec.neighbors g h node ad dcc ->
            exists d, Spec.included g h dcc (coords node) d = true
                      /\ coords v = Spec.target d (coords node)) as Hdir.
  { intros v (d & _ & Hv)%elem_of_concat_map. exists d.
    destruct (entry_cases g h dcc (coords node) d Hwf)
      as [[_ He] | (Hinc & v' & He & Hv' & _)]; rewrite He in Hv.
    - by apply elem_of_nil in Hv.
    - by apply list_elem_of_singleton in Hv as ->. }
  split.
  - intros v Hv. destruct (Hdir v Hv) as (d & Hinc & ->).
    apply open_at_clear; [done|]. by apply included_clear in Hinc as [_ ?].
  - intros Hne. destruct (Spec.neighbors g h node ad dcc) as [|v vs] eqn:Hns;
      [done|].
    destruct (Hdir v) as (d & Hinc & _); [by apply list_elem_of_here|].
    apply open_at_clear; [done|]. by apply included_clear in Hinc as [? _].
Qed.

Lemma getNeighbors_returns_walkable_cells_witness :
  exists ns,
    getNeighbors ring3.1 (open_view 0 1) true false ring3.2 = Ok ns /\
    (forall v, v ∈ ns -> open_at ring3.1 ring3.2 (coords v)) /\
    (ns <> [] -> open_at ring3.1 ring3.2 (coords (open_view 0 1))).
Proof.
  apply (getNeighbors_returns_walkable_cells
           ring3.1 ring3.2 (open_view 0 1) true false).
  vm_compute; reflexivity.
Defined.

Lemma call_keeps_answers (c : Call) (g : Grid.t) (h : Heap) (x y : Z)
    (border : option string) :
  wf g h = true -> is_setWalkableAt c = false ->
  isWalkableAt (call c g h).1.1 x y border (call c g h).1.2
  = isWalkableAt g x y border h.
Proof.
  intros Hwf Hc. destruct c; simpl; try done.
  destruct (clone_ok g h Hwf) as (nodes' & h1 & h' & -> & Hpre1 & Hpre2 & _).
  simpl. apply isWalkableAt_ext. intros l Hl.
  destruct (wf_ref g h x y l Hwf Hl) as [Hlt _].
  destruct (transitivity Hpre1 Hpre2) as [ext ->]. by rewrite lookup_app_l.
Qed.

(** X20. Only [setWalkableAt] changes walkability: over any sequence of
    calls on a well-formed grid that holds no [setWalkableAt], whatever it
    reads, clones or increments, [isWalkableAt] answers in the end as it
    did at the start, at every position and for every border. *)
Theorem only_setWalkableAt_changes_walkability
    (g : Grid.t) (h : Heap) (cs : list Call) (x y : Z)
    (border : option string) :
  wf g h = true ->
  forallb (fun c => negb (is_setWalkableAt c)) cs = true ->
  isWalkableAt (run cs g h).1 x y border (run cs g h).2
  = isWalkableAt g x y border h.
Proof.
  revert g h. induction cs as [|c cs IH]; intros g h Hwf Hcs; [done|].
  simpl in Hcs. apply andb_true_iff in Hcs as [Hc Hcs].
  apply negb_true_iff in Hc. rewrite run_cons.
  rewrite IH by (done || by apply call_wf). by apply call_keeps_answers.
Qed.

Lemma only_setWalkableAt_changes_walkability_witness :
  isWalkableAt
    (run [CallClone; CallIncrement; CallGetNodeAt 7 7; CallClone]
       tagged4.1 tagged4.2).1 1 1 (Some "top"%string)
    (run [CallClone; CallIncrement; CallGetNodeAt 7 7; CallClone]
       tagged4.1 tagged4.2).2
  = isWalkableAt tagged4.1 1 1 (Some "top"%string) tagged4.2.
Proof.
  apply (only_setWalkableAt_changes_walkability tagged4.1 tagged4.2
           [CallClone; CallIncrement; CallGetNodeAt 7 7; CallClone]
           1 1 (Some "top"%string)); vm_compute; reflexivity.
Defined.
